(** * modelado_generator: field-name normalisation and alias alignment

    Shallow embedding of [src/utils/text_utils.py]:
    - [normalizer] (lower-casing, removal of [[^\w\s]], strip, and each
      whitespace run [\s+] turned into an underscore);
    - [sorter] (the greedy matching loop over [zip(origin, normalized)] with
      the dictionary [alias_map] and the set [used_aliases]).

    Python [str] values are modelled as [string]; a character is an [ascii],
    read as the code point U+0000..U+00FF.  The character classes below are
    the ones CPython applies to those code points ([str.lower], [str.isspace]
    which is also what [\s] and [str.strip] test, and [\w]).  Code points
    above U+00FF are outside the model. *)

From Stdlib Require Import Ascii.
From Stdlib Require String.
From stdpp Require Import gmap strings list fin_maps.

(** ** Character classes *)

Module Char.

Definition code (c : ascii) : N := Ascii.N_of_ascii c.

Definition between (lo hi : N) (c : ascii) : bool :=
  (lo <=? code c)%N && (code c <=? hi)%N.

Definition has_code (n : N) (c : ascii) : bool := (code c =? n)%N.

(** [str.isspace], [\s], and the characters removed by [str.strip()]:
    TAB..CR, FS..US, SPACE, NEL, NBSP. *)
Definition is_space (c : ascii) : bool :=
  between 9 13 c || between 28 31 c || has_code 32 c || has_code 133 c || has_code 160 c.

(** [str.isupper] on one character: A-Z, U+00C0..U+00D6, U+00D8..U+00DE. *)
Definition is_upper (c : ascii) : bool :=
  between 65 90 c || between 192 214 c || between 216 222 c.

(** [str.lower] on one character: every upper-case letter of the range has
    its lower-case partner 32 code points further. *)
Definition to_lower (c : ascii) : ascii :=
  if is_upper c then Ascii.ascii_of_N (code c + 32) else c.

Definition is_digit (c : ascii) : bool := between 48 57 c.

(** Letters ([str.isalpha]). *)
Definition is_alpha (c : ascii) : bool :=
  between 65 90 c || between 97 122 c
  || has_code 170 c || has_code 181 c || has_code 186 c
  || between 192 214 c || between 216 246 c || between 248 255 c.

(** Superscript digits and vulgar fractions, numeric for [str.isalnum]. *)
Definition is_other_numeric (c : ascii) : bool :=
  has_code 178 c || has_code 179 c || has_code 185 c || between 188 190 c.

Definition underscore : ascii := Ascii.ascii_of_N 95.

Definition is_underscore (c : ascii) : bool := has_code 95 c.

(** [\w]: alphanumeric or underscore. *)
Definition is_word (c : ascii) : bool :=
  is_alpha c || is_digit c || is_other_numeric c || is_underscore c.

(** Membership in Python's [string.punctuation]. *)
Definition is_punctuation (c : ascii) : bool :=
  between 33 47 c || between 58 64 c || between 91 96 c || between 123 126 c.

End Char.

(** ** [normalizer] *)

(** [text.lower()].  On code points up to U+00FF [str.lower] maps each
    character on its own, as here; above that range it is sensitive to
    context (final sigma) and leaves some upper-case letters unchanged,
    which this model does not cover. *)
Definition lower (text : list ascii) : list ascii := map Char.to_lower text.

(** [re.sub] with pattern [[^\w\s]] and the empty replacement: every
    character that is neither a word character nor whitespace is deleted. *)
Definition remove_specials (text : list ascii) : list ascii :=
  List.filter (λ c, Char.is_word c || Char.is_space c) text.

Fixpoint lstrip (text : list ascii) : list ascii :=
  match text with
  | [] => []
  | c :: rest => if Char.is_space c then lstrip rest else text
  end.

Definition rstrip (text : list ascii) : list ascii :=
  reverse (lstrip (reverse text)).

(** [text.strip()] *)
Definition strip (text : list ascii) : list ascii := rstrip (lstrip text).

(** [re.sub] with pattern [\s+] and an underscore as replacement: scanning
    left to right, a maximal run of whitespace is replaced by one
    underscore.  [in_run] records that the previous character belonged to
    the run being replaced. *)
Fixpoint sub_spaces (in_run : bool) (text : list ascii) : list ascii :=
  match text with
  | [] => []
  | c :: rest =>
      if Char.is_space c
      then (if in_run then sub_spaces true rest
            else Char.underscore :: sub_spaces true rest)
      else c :: sub_spaces false rest
  end.

Definition normalize_chars (text : list ascii) : list ascii :=
  sub_spaces false (strip (remove_specials (lower text))).

Definition normalizer (text : string) : string :=
  String.string_of_list_ascii
    (normalize_chars (String.list_ascii_of_string text)).

(** The shape the specification promises for underscores: none at either end
    and no two next to each other. *)
Fixpoint no_adjacent_underscores (text : list ascii) : bool :=
  match text with
  | [] => true
  | c :: rest =>
      negb (Char.is_underscore c && from_option Char.is_underscore false (head rest))
      && no_adjacent_underscores rest
  end.

Definition single_underscores (text : list ascii) : bool :=
  negb (from_option Char.is_underscore false (head text))
  && negb (from_option Char.is_underscore false (last text))
  && no_adjacent_underscores text.

(** The characters of a string, and whether an underscore is among them. *)
Definition chars (s : string) : list ascii := String.list_ascii_of_string s.

Definition contains_underscore (text : list ascii) : bool :=
  existsb Char.is_underscore text.

(** Characters allowed in a normalised name. *)
Definition canonical_char (c : ascii) : bool :=
  Char.is_word c && negb (Char.is_upper c) && negb (Char.is_space c).


(** ** [sorter] *)

(** The two locals of [sorter]: the dictionary [alias_map] (keyed by the
    original field name) and the set [used_aliases]. *)
Record loop_state := LoopState {
  alias_map : gmap string string;
  used_aliases : gset string
}.

Definition initial_state : loop_state := LoopState ∅ ∅.

(** [norm in alias and norm not in used_aliases] *)
Definition exact_match (alias : list string) (used : gset string) (norm : string) : bool :=
  bool_decide (norm ∈ alias) && negb (bool_decide (norm ∈ used)).

(** [next((a for a in alias if a.startswith(norm) and a not in used_aliases), None)] *)
Definition next_fallback (alias : list string) (used : gset string) (norm : string)
  : option string :=
  List.find (λ a, String.prefix norm a && negb (bool_decide (a ∈ used))) alias.

(** [fallback or norm]: [None] and the empty string are both falsy. *)
Definition py_or (fallback : option string) (norm : string) : string :=
  match fallback with
  | Some EmptyString => norm
  | Some a => a
  | None => norm
  end.

(** One iteration of the [for] loop on the pair [(orig_raw, norm)]. *)
Definition loop_body (alias : list string) (st : loop_state) (p : string * string)
  : loop_state :=
  let '(orig_raw, norm) := p in
  if exact_match alias (used_aliases st) norm then
    LoopState (<[orig_raw := norm]> (alias_map st)) ({[norm]} ∪ used_aliases st)
  else
    let fallback := next_fallback alias (used_aliases st) norm in
    LoopState (<[orig_raw := py_or fallback norm]> (alias_map st)) (used_aliases st).

Definition run_loop (alias : list string) (st : loop_state) (pairs : list (string * string))
  : loop_state :=
  foldl (loop_body alias) st pairs.

(** [sorter]; [None] stands for the [KeyError] of [alias_map[orig]]. *)
Definition sorter (origin normalized alias : list string) : option (list string) :=
  let st := run_loop alias initial_state (zip origin normalized) in
  mapM (λ orig, alias_map st !! orig) origin.

(** *** Observations on a run *)

(** The value one iteration stores under [orig_raw]. *)
Definition assigned (alias : list string) (used : gset string) (norm : string) : string :=
  if exact_match alias used norm then norm
  else py_or (next_fallback alias used norm) norm.

(** The values stored by the successive iterations, in iteration order. *)
Fixpoint trace (alias : list string) (st : loop_state) (pairs : list (string * string))
  : list string :=
  match pairs with
  | [] => []
  | p :: rest => assigned alias (used_aliases st) p.2 :: trace alias (loop_body alias st p) rest
  end.

Definition assignments (origin normalized alias : list string) : list string :=
  trace alias initial_state (zip origin normalized).

(** The loop state when iteration [i] starts, and the consumed set then. *)
Definition state_before (origin normalized alias : list string) (i : nat) : loop_state :=
  run_loop alias initial_state (take i (zip origin normalized)).

Definition used_before (origin normalized alias : list string) (i : nat) : gset string :=
  used_aliases (state_before origin normalized alias i).

Definition final_state (origin normalized alias : list string) : loop_state :=
  run_loop alias initial_state (zip origin normalized).

(** Position of the last occurrence of [x] in [l]. *)
Fixpoint last_index (x : string) (l : list string) : option nat :=
  match l with
  | [] => None
  | y :: rest =>
      match last_index x rest with
      | Some j => Some (S j)
      | None => if decide (y = x) then Some 0 else None
      end
  end.

(** [normalized] is a function of [origin], position by position, as it is
    when the caller computes [normalized = [normalizer(f) for f in origin]]. *)
Definition consistent (origin normalized : list string) : Prop :=
  ∃ f : string → string, normalized = f <$> origin.

(** *** The loop as the specification words it

    Section 4.2 of the specification marks the alias consumed in the prefix
    branch (step b) as well.  This second loop body follows those words and
    is only compared with [loop_body]. *)
Definition spec_loop_body (alias : list string) (st : loop_state) (p : string * string)
  : loop_state :=
  let '(orig_raw, norm) := p in
  if exact_match alias (used_aliases st) norm then
    LoopState (<[orig_raw := norm]> (alias_map st)) ({[norm]} ∪ used_aliases st)
  else
    match next_fallback alias (used_aliases st) norm with
    | Some a => LoopState (<[orig_raw := a]> (alias_map st)) ({[a]} ∪ used_aliases st)
    | None => LoopState (<[orig_raw := norm]> (alias_map st)) (used_aliases st)
    end.

Definition spec_align (origin normalized alias : list string) : option (list string) :=
  let st := foldl (spec_loop_body alias) initial_state (zip origin normalized) in
  mapM (λ orig, alias_map st !! orig) origin.

(** ** The caller: [src/generator/main.py] *)

(** [str.isalnum] on one character: letters, digits and the other numerics;
    the word characters without the underscore. *)
Definition is_alnum (c : ascii) : bool :=
  Char.is_alpha c || Char.is_digit c || Char.is_other_numeric c.

(** *** The pool as [main] builds it

    [main] passes [list(<DataFrame column>)] as [alias].  An entry of that
    list is a string, or a value that is not one (the float NaN of an empty
    spreadsheet cell, a number); such a value is equal to no string and has
    no [startswith], so that [a.startswith(norm)] raises [AttributeError]. *)
Inductive cell := Str (s : string) | NotStr.

Inductive exception := KeyError | AttributeError.

Inductive result (A : Type) := Ok (a : A) | Raise (e : exception).

Arguments Ok {A} a.
Arguments Raise {A} e.

(** [norm in alias] on such a list: some entry is equal to [norm]. *)
Definition str_in (norm : string) (alias : list cell) : bool :=
  existsb (λ c, match c with Str a => bool_decide (norm = a) | NotStr => false end)
          alias.

(** [next((a for a in alias if a.startswith(norm) and a not in used_aliases),
    None)] on such a list: the scan stops at the first entry that passes
    the test, and raises at the first entry without [startswith] it meets
    before that. *)
Fixpoint next_fallback_cells (alias : list cell) (used : gset string) (norm : string)
  : result (option string) :=
  match alias with
  | [] => Ok None
  | NotStr :: _ => Raise AttributeError
  | Str a :: rest =>
      if String.prefix norm a && negb (bool_decide (a ∈ used)) then Ok (Some a)
      else next_fallback_cells rest used norm
  end.

(** One iteration of the [for] loop of [sorter] on such a pool. *)
Definition loop_body_cells (alias : list cell) (st : loop_state) (p : string * string)
  : result loop_state :=
  let '(orig_raw, norm) := p in
  if str_in norm alias && negb (bool_decide (norm ∈ used_aliases st)) then
    Ok (LoopState (<[orig_raw := norm]> (alias_map st)) ({[norm]} ∪ used_aliases st))
  else
    match next_fallback_cells alias (used_aliases st) norm with
    | Ok fallback =>
        Ok (LoopState (<[orig_raw := py_or fallback norm]> (alias_map st))
              (used_aliases st))
    | Raise e => Raise e
    end.

(** The loop: an exception ends it. *)
Fixpoint run_loop_cells (alias : list cell) (st : loop_state)
    (pairs : list (string * string)) : result loop_state :=
  match pairs with
  | [] => Ok st
  | p :: rest =>
      match loop_body_cells alias st p with
      | Ok st' => run_loop_cells alias st' rest
      | Raise e => Raise e
      end
  end.

(** [sorter] called with such a pool. *)
Definition sorter_cells (origin normalized : list string) (alias : list cell)
  : result (list string) :=
  match run_loop_cells alias initial_state (zip origin normalized) with
  | Ok st =>
      match mapM (λ orig, alias_map st !! orig) origin with
      | Some out => Ok out
      | None => Raise KeyError
      end
  | Raise e => Raise e
  end.

(** The "Process fields" step of [main]:
    [normalized_origin_fields = [normalizer(f) for f in origin_fields]]
    followed by the call of [sorter] with the pool read from the
    spreadsheet. *)
Definition process_fields (origin_fields : list string) (aliases : list cell)
  : result (list string) :=
  let normalized_origin_fields := normalizer <$> origin_fields in
  sorter_cells origin_fields normalized_origin_fields aliases.

(** *** [load_schema_data] *)

Definition is_tab (c : ascii) : bool := Char.has_code 9 c.

Definition tab : ascii := Ascii.ascii_of_N 9.

(** [str.split] with the tab as separator: one part more than there are
    tabs; the empty text gives one empty part. *)
Fixpoint split_tab (text : list ascii) : list (list ascii) :=
  match text with
  | [] => [[]]
  | c :: rest =>
      if is_tab c then [] :: split_tab rest
      else match split_tab rest with
           | part :: parts => (c :: part) :: parts
           | [] => [[c]]
           end
  end.

(** One iteration of [for line in f]: [parts = line.strip().split(tab)], and
    the two appends when [len(parts) == 2]. *)
Definition load_line (acc : list string * list string) (line : string)
  : list string * list string :=
  match split_tab (strip (chars line)) with
  | [name; ftype] =>
      (acc.1 ++ [String.string_of_list_ascii name],
       acc.2 ++ [String.string_of_list_ascii ftype])
  | _ => acc
  end.

(** What a single line contributes to the two lists. *)
Definition line_fields (line : string) : list string * list string :=
  load_line ([], []) line.

(** The number of tabs of a text. *)
Definition count_tabs (text : list ascii) : nat := length (List.filter is_tab text).

(** The loop of [load_schema_data] over the lines the opened file yields;
    the result is the pair [(origin_fields, field_types)].  A failure of
    [open] is re-raised before the loop starts and is not part of this
    function. *)
Definition load_schema_data (lines : list string) : list string * list string :=
  foldl load_line ([], []) lines.

(** *** The column lines of the two SQL files *)

Definition indent (field : string) : string := "    " +:+ field.

Definition catalog_audit_fields : list string :=
  [ "fecha_audit_create TIMESTAMP";
    "proceso_audit_create STRING";
    "fecha_audit_update TIMESTAMP";
    "proceso_audit_update STRING" ].

(** [field_lines] of [generate_glue_catalog_populators], after the [extend]. *)
Definition catalog_field_lines (origin field : list string) : list string :=
  ((λ p, "    `" +:+ p.1 +:+ "` " +:+ p.2 +:+ ",") <$> zip origin field)
  ++ (indent <$> catalog_audit_fields).

Definition populator_audit_fields : list string :=
  [ "current_timestamp AS fecha_audit_create,";
    "'drilling-standarized2lakehouse-pipeline' AS proceso_audit_create,";
    "null AS fecha_audit_update,";
    "null AS proceso_audit_update" ].

(** [field_lines] of [generate_s3_populator], after the [extend]. *)
Definition populator_field_lines (origin alias : list string) : list string :=
  let s3p := (λ p, "`" +:+ p.1 +:+ "` AS " +:+ p.2 +:+ ",") <$> zip origin alias in
  (indent <$> s3p) ++ (indent <$> populator_audit_fields).

(** * Properties of [normalizer] *)

Section CharFacts.

Local Ltac by_cases c :=
  destruct c as [[] [] [] [] [] [] [] []]; vm_compute; try done; auto.

Lemma to_lower_not_upper c : Char.is_upper (Char.to_lower c) = false.
Proof. by_cases c. Qed.

Lemma to_lower_fixed c : Char.is_upper c = false → Char.to_lower c = c.
Proof. by_cases c. Qed.

Lemma to_lower_underscore c :
  Char.is_underscore (Char.to_lower c) = Char.is_underscore c.
Proof. by_cases c. Qed.

Lemma word_not_space c : Char.is_word c = true → Char.is_space c = false.
Proof. by_cases c. Qed.

Lemma is_underscore_eq c : Char.is_underscore c = true ↔ c = Char.underscore.
Proof. split; [by_cases c | by intros ->]. Qed.

Lemma canonical_punctuation c :
  canonical_char c = true → Char.is_punctuation c = true → c = Char.underscore.
Proof. by_cases c. Qed.

Lemma canonical_char_spec c :
  canonical_char c = true ↔
  Char.is_word c = true ∧ Char.is_upper c = false ∧ Char.is_space c = false.
Proof.
  unfold canonical_char. rewrite !andb_true_iff, !negb_true_iff. tauto.
Qed.

Lemma canonical_underscore : canonical_char Char.underscore = true.
Proof. reflexivity. Qed.

End CharFacts.

Section NormalizerFacts.

Implicit Types (text : list ascii) (c : ascii).

(** Stripping only ever removes whitespace from an end. *)
Lemma lstrip_split text :
  ∃ pre, text = pre ++ lstrip text ∧ Forall (λ c, Char.is_space c = true) pre.
Proof.
  induction text as [|c rest [pre [E Hpre]]]; simpl.
  - by exists [].
  - destruct (Char.is_space c) eqn:Hc.
    + exists (c :: pre). split; [by rewrite E at 1 | by constructor].
    + by exists [].
Qed.

Lemma rstrip_split text :
  ∃ post, text = rstrip text ++ post ∧ Forall (λ c, Char.is_space c = true) post.
Proof.
  destruct (lstrip_split (reverse text)) as [pre [E Hpre]].
  exists (reverse pre). split.
  - unfold rstrip. rewrite <- reverse_app, <- E. by rewrite reverse_involutive.
  - by apply Forall_reverse.
Qed.

Lemma elem_of_lstrip text c : c ∈ lstrip text → c ∈ text.
Proof.
  destruct (lstrip_split text) as [pre [E _]]. intros H.
  rewrite E. apply elem_of_app. by right.
Qed.

Lemma elem_of_rstrip text c : c ∈ rstrip text → c ∈ text.
Proof.
  destruct (rstrip_split text) as [post [E _]]. intros H.
  rewrite E. apply elem_of_app. by left.
Qed.

Lemma elem_of_strip text c : c ∈ strip text → c ∈ text.
Proof. intros H. by apply elem_of_lstrip, elem_of_rstrip. Qed.

Lemma lstrip_head text :
  from_option Char.is_space false (head (lstrip text)) = false.
Proof.
  induction text as [|c rest IH]; simpl; [done|].
  destruct (Char.is_space c) eqn:Hc; [done | by simpl].
Qed.

Lemma strip_last text :
  from_option Char.is_space false (last (strip text)) = false.
Proof. unfold strip, rstrip. rewrite last_reverse. apply lstrip_head. Qed.

Lemma strip_head text :
  from_option Char.is_space false (head (strip text)) = false.
Proof.
  unfold strip. destruct (rstrip_split (lstrip text)) as [post [E _]].
  pose proof (lstrip_head text) as Hh. rewrite E in Hh.
  by destruct (rstrip (lstrip text)).
Qed.

Lemma lstrip_id text :
  Forall (λ c, Char.is_space c = false) text → lstrip text = text.
Proof. destruct 1 as [|c rest Hc _]; simpl; [done | by rewrite Hc]. Qed.

Lemma strip_id text :
  Forall (λ c, Char.is_space c = false) text → strip text = text.
Proof.
  intros H. unfold strip, rstrip. rewrite (lstrip_id text H).
  rewrite lstrip_id by by apply Forall_reverse.
  apply reverse_involutive.
Qed.

Lemma elem_of_lower text c :
  c ∈ lower text → ∃ c0, c0 ∈ text ∧ c = Char.to_lower c0.
Proof.
  unfold lower. intros H. apply (list_elem_of_fmap_1 Char.to_lower) in H as (c0 & -> & H).
  by exists c0.
Qed.

Lemma elem_of_remove_specials text c :
  c ∈ remove_specials text ↔
  c ∈ text ∧ (Char.is_word c = true ∨ Char.is_space c = true).
Proof.
  unfold remove_specials. rewrite !list_elem_of_In, filter_In, orb_true_iff. tauto.
Qed.

(** A character the substitution emits is the underscore or a
    non-whitespace character of its input. *)
Lemma elem_of_sub_spaces in_run text c :
  c ∈ sub_spaces in_run text →
  c = Char.underscore ∨ (c ∈ text ∧ Char.is_space c = false).
Proof.
  revert in_run. induction text as [|d rest IH]; intros in_run; simpl.
  - by intros ?%elem_of_nil.
  - destruct (Char.is_space d) eqn:Hd.
    + destruct in_run.
      * intros [?|[? ?]]%IH; [by left | right; split; [by right | done]].
      * intros [->|[?|[? ?]]%IH]%elem_of_cons;
          [by left | by left | right; split; [by right | done]].
    + intros [->|[?|[? ?]]%IH]%elem_of_cons.
      * right. split; [by left | done].
      * by left.
      * right. split; [by right | done].
Qed.

Lemma sub_spaces_id in_run text :
  Forall (λ c, Char.is_space c = false) text → sub_spaces in_run text = text.
Proof.
  intros H. revert in_run.
  induction H as [|c rest Hc _ IH]; intros in_run; simpl; [done|].
  by rewrite Hc, IH.
Qed.

End NormalizerFacts.

Section NormalizerShape.

Implicit Types (text : list ascii) (c : ascii).

Lemma normalize_chars_canonical text c :
  c ∈ normalize_chars text → canonical_char c = true.
Proof.
  unfold normalize_chars.
  intros [->|[Hc Hsp]]%elem_of_sub_spaces; [apply canonical_underscore|].
  apply elem_of_strip, elem_of_remove_specials in Hc as [Hc Hcls].
  apply elem_of_lower in Hc as (c0 & _ & ->).
  apply canonical_char_spec. split_and!; [|apply to_lower_not_upper|done].
  destruct Hcls as [?|Hsp']; [done | congruence].
Qed.

Lemma normalize_chars_fixed text :
  Forall (λ c, canonical_char c = true) text → normalize_chars text = text.
Proof.
  intros H. unfold normalize_chars.
  assert (lower text = text) as ->.
  { unfold lower. induction H as [|c rest Hc _ IH]; simpl; [done|].
    apply canonical_char_spec in Hc as (_ & Hu & _).
    by rewrite to_lower_fixed, IH. }
  assert (remove_specials text = text) as ->.
  { unfold remove_specials. induction H as [|c rest Hc _ IH]; simpl; [done|].
    apply canonical_char_spec in Hc as (-> & _ & _). simpl. by rewrite IH. }
  assert (Forall (λ c, Char.is_space c = false) text) as Hsp.
  { eapply Forall_impl; [exact H|]. by intros c (_ & _ & ?)%canonical_char_spec. }
  rewrite strip_id by done. by apply sub_spaces_id.
Qed.

Lemma sub_spaces_true_nil text :
  sub_spaces true text = [] → Forall (λ c, Char.is_space c = true) text.
Proof.
  induction text as [|c rest IH]; simpl; [done|].
  destruct (Char.is_space c) eqn:Hc; [|done]. intros H. constructor; auto.
Qed.

Lemma last_all_spaces c text :
  Char.is_space c = true → Forall (λ d, Char.is_space d = true) text →
  from_option Char.is_space false (last (c :: text)) = true.
Proof.
  intros Hc H. rewrite last_cons. destruct (last text) as [d|] eqn:Hl; simpl; [|done].
  apply last_Some_elem_of in Hl. by apply (proj1 (Forall_forall _ _) H).
Qed.

(** Shape of the substitution's output when its input has no underscore of
    its own: an underscore is never followed by another one, it opens the
    output only if whitespace opens the input, and closes it only if
    whitespace closes the input. *)
Lemma sub_spaces_shape in_run text :
  (∀ c, c ∈ text → Char.is_underscore c = false) →
  no_adjacent_underscores (sub_spaces in_run text) = true
  ∧ (from_option Char.is_underscore false (head (sub_spaces in_run text)) = true →
     in_run = false ∧ from_option Char.is_space false (head text) = true)
  ∧ (from_option Char.is_underscore false (last (sub_spaces in_run text)) = true →
     from_option Char.is_space false (last text) = true).
Proof.
  revert in_run. induction text as [|c rest IH]; intros in_run Hno; simpl.
  { split_and!; done. }
  assert (∀ d, d ∈ rest → Char.is_underscore d = false) as Hrest.
  { intros d Hd. apply Hno. by right. }
  assert (Char.is_underscore c = false) as Hc by (apply Hno; left).
  destruct (Char.is_space c) eqn:Hsp.
  - destruct (IH true Hrest) as (Hadj & Hhead & Hlast).
    assert (from_option Char.is_underscore false (head (sub_spaces true rest)) = false)
      as Hh0.
    { destruct (from_option Char.is_underscore false (head (sub_spaces true rest)));
        [by destruct (Hhead eq_refl) | done]. }
    destruct in_run.
    + split_and!; [done | by rewrite Hh0 | ].
      intros Hl%Hlast. rewrite last_cons. by destruct (last rest).
    + simpl. rewrite Hh0, Hadj. split_and!; [done | done |].
      rewrite (last_cons _ (sub_spaces true rest)).
      destruct (last (sub_spaces true rest)) as [d|] eqn:El; simpl.
      * intros Hd. rewrite last_cons.
        assert (from_option Char.is_space false (last rest) = true) as Hl'
          by (by apply Hlast).
        by destruct (last rest).
      * intros _. apply last_None in El. by apply last_all_spaces, sub_spaces_true_nil.
  - destruct (IH false Hrest) as (Hadj & Hhead & Hlast).
    simpl. rewrite Hc, Hadj. simpl. split_and!; [done | done |].
    rewrite (last_cons _ (sub_spaces false rest)).
    destruct (last (sub_spaces false rest)) as [d|] eqn:El; simpl.
    + intros Hd. rewrite last_cons.
      assert (from_option Char.is_space false (last rest) = true) as Hl'
        by (by apply Hlast).
      by destruct (last rest).
    + by rewrite Hc.
Qed.

Lemma normalize_chars_single text :
  Char.underscore ∉ text → single_underscores (normalize_chars text) = true.
Proof.
  intros Hno. unfold normalize_chars.
  set (t := strip (remove_specials (lower text))).
  assert (∀ c, c ∈ t → Char.is_underscore c = false) as Ht.
  { intros c Hc. apply elem_of_strip, elem_of_remove_specials in Hc as [Hc _].
    apply elem_of_lower in Hc as (c0 & Hc0 & ->). rewrite to_lower_underscore.
    destruct (Char.is_underscore c0) eqn:E; [|done].
    apply is_underscore_eq in E as ->. done. }
  destruct (sub_spaces_shape false t Ht) as (Hadj & Hhead & Hlast).
  unfold single_underscores. rewrite Hadj.
  destruct (from_option Char.is_underscore false (head (sub_spaces false t))) eqn:Eh.
  { destruct (Hhead eq_refl) as [_ Hs]. unfold t in Hs. by rewrite strip_head in Hs. }
  destruct (from_option Char.is_underscore false (last (sub_spaces false t))) eqn:El.
  { specialize (Hlast eq_refl). unfold t in Hlast. by rewrite strip_last in Hlast. }
  done.
Qed.

End NormalizerShape.

(** * Properties of [sorter] *)

Section LastIndex.

Implicit Types (x : string) (l : list string).

Lemma last_index_None x l : last_index x l = None ↔ x ∉ l.
Proof.
  induction l as [|y rest IH]; simpl.
  - split; [intros _; apply not_elem_of_nil | done].
  - rewrite not_elem_of_cons. destruct (last_index x rest) as [j|].
    + split; [done|]. intros [_ H]. by apply IH in H.
    + destruct (decide (y = x)) as [->|Hne]; [split; [done | by intros [? _]]|].
      split; [|done]. intros _. split; [done | by apply IH].
Qed.

Lemma last_index_Some x l j :
  last_index x l = Some j →
  l !! j = Some x ∧ ∀ k, j < k → l !! k ≠ Some x.
Proof.
  revert j. induction l as [|y rest IH]; intros j; simpl; [done|].
  destruct (last_index x rest) as [j'|] eqn:E.
  - intros [= <-]. destruct (IH j' eq_refl) as [Hj Hlater]. split; [done|].
    intros [|k] Hk; [lia|]. simpl. apply Hlater. lia.
  - destruct (decide (y = x)) as [->|Hne]; [|done]. intros [= <-]. split; [done|].
    intros [|k] Hk; [lia|]. simpl. intros Hin.
    apply last_index_None in E. apply E. by eapply list_elem_of_lookup_2.
Qed.

Lemma last_index_ge x l i :
  l !! i = Some x → ∃ j, last_index x l = Some j ∧ i ≤ j.
Proof.
  revert i. induction l as [|y rest IH]; intros i; simpl; [done|].
  destruct i as [|i]; simpl.
  - intros [= ->]. destruct (last_index x rest) as [j|].
    + exists (S j). split; [done | lia].
    + rewrite decide_True by done. exists 0. split; [done | lia].
  - intros (j & -> & Hij)%IH. exists (S j). split; [done | lia].
Qed.

Lemma last_index_final x l i :
  l !! i = Some x → (∀ k, i < k → l !! k ≠ Some x) → last_index x l = Some i.
Proof.
  intros Hi Hlater. destruct (last_index_ge x l i Hi) as (j & Hj & Hij).
  destruct (decide (i = j)) as [->|Hne]; [done|].
  apply last_index_Some in Hj as [Hj _]. destruct (Hlater j); [lia | done].
Qed.

Lemma last_index_NoDup x l i :
  NoDup l → l !! i = Some x → last_index x l = Some i.
Proof.
  intros Hnd Hi. apply last_index_final; [done|]. intros k Hk Hkx.
  assert (i = k) by (eapply NoDup_lookup; eauto). lia.
Qed.

End LastIndex.

Section FindFacts.

Context {A : Type} (f : A → bool).

Lemma find_all_false (l : list A) :
  (∀ x, x ∈ l → f x = false) → List.find f l = None.
Proof.
  induction l as [|y rest IH]; intros H; simpl; [done|].
  rewrite (H y) by left. apply IH. intros x Hx. apply H. by right.
Qed.

Lemma find_None_all (l : list A) :
  List.find f l = None → ∀ x, x ∈ l → f x = false.
Proof. intros H x Hx%list_elem_of_In. by eapply find_none. Qed.

(** [find] returns the first element, in list order, that passes the test. *)
Lemma find_Some_first (l : list A) (a : A) :
  List.find f l = Some a →
  ∃ k, l !! k = Some a ∧ f a = true
       ∧ ∀ k' b, k' < k → l !! k' = Some b → f b = false.
Proof.
  induction l as [|y rest IH]; simpl; [done|].
  destruct (f y) eqn:Hy.
  - intros [= ->]. exists 0. split_and!; [done | done | intros; lia].
  - intros (k & Hk & Ha & Hbefore)%IH. exists (S k). split_and!; [done | done |].
    intros [|k'] b Hlt; simpl; [by intros [= <-] | apply Hbefore; lia].
Qed.

End FindFacts.

Section LoopFacts.

Variable alias : list string.

Local Arguments loop_body : simpl never.

Implicit Types (st : loop_state) (pairs : list (string * string)).

Lemma loop_body_alias_map st orig_raw norm :
  alias_map (loop_body alias st (orig_raw, norm))
  = <[orig_raw := assigned alias (used_aliases st) norm]> (alias_map st).
Proof.
  unfold loop_body, assigned. by destruct (exact_match alias (used_aliases st) norm).
Qed.

Lemma loop_body_used st orig_raw norm :
  used_aliases (loop_body alias st (orig_raw, norm))
  = if exact_match alias (used_aliases st) norm
    then {[norm]} ∪ used_aliases st else used_aliases st.
Proof.
  unfold loop_body. by destruct (exact_match alias (used_aliases st) norm).
Qed.

Lemma run_loop_cons st p pairs :
  run_loop alias st (p :: pairs) = run_loop alias (loop_body alias st p) pairs.
Proof. done. Qed.

Lemma run_loop_snoc st pairs p :
  run_loop alias st (pairs ++ [p]) = loop_body alias (run_loop alias st pairs) p.
Proof. unfold run_loop. by rewrite foldl_app. Qed.

Lemma trace_length st pairs : length (trace alias st pairs) = length pairs.
Proof.
  revert st. induction pairs as [|p rest IH]; intros st; simpl; [done|].
  by rewrite IH.
Qed.

(** Iteration [i] stores the value computed from the consumed set as it is
    when that iteration starts. *)
Lemma trace_lookup st pairs i :
  trace alias st pairs !! i
  = (λ p, assigned alias (used_aliases (run_loop alias st (take i pairs))) p.2)
      <$> pairs !! i.
Proof.
  revert st i. induction pairs as [|p rest IH]; intros st [|i]; simpl; done.
Qed.

(** After the loop, the dictionary holds under [orig] the value stored by
    the last iteration whose key was [orig]. *)
Lemma run_loop_lookup st pairs orig :
  alias_map (run_loop alias st pairs) !! orig
  = match last_index orig pairs.*1 with
    | Some j => trace alias st pairs !! j
    | None => alias_map st !! orig
    end.
Proof.
  revert st. induction pairs as [|[o n] rest IH]; intros st; [done|].
  rewrite run_loop_cons, IH, fmap_cons. cbn [last_index fst].
  destruct (last_index orig rest.*1) as [j|]; [done|].
  rewrite loop_body_alias_map.
  destruct (decide (o = orig)) as [->|Hne].
  - by rewrite lookup_insert_eq.
  - by rewrite lookup_insert_ne.
Qed.

(** Only members of the pool are ever marked consumed. *)
Lemma loop_body_used_in_alias st p :
  (∀ a, a ∈ used_aliases st → a ∈ alias) →
  ∀ a, a ∈ used_aliases (loop_body alias st p) → a ∈ alias.
Proof.
  destruct p as [o n]. intros Hinv a. rewrite loop_body_used.
  destruct (exact_match alias (used_aliases st) n) eqn:E; [|by apply Hinv].
  apply andb_true_iff in E as [Hin%bool_decide_eq_true _].
  intros [->%elem_of_singleton|?]%elem_of_union; [done | by apply Hinv].
Qed.

Lemma run_loop_used_in_alias st pairs :
  (∀ a, a ∈ used_aliases st → a ∈ alias) →
  ∀ a, a ∈ used_aliases (run_loop alias st pairs) → a ∈ alias.
Proof.
  revert st. induction pairs as [|p rest IH]; intros st Hinv; [done|].
  rewrite run_loop_cons. by apply IH, loop_body_used_in_alias.
Qed.

(** The consumed set only grows. *)
Lemma loop_body_used_mono st p :
  used_aliases st ⊆ used_aliases (loop_body alias st p).
Proof.
  destruct p as [o n]. rewrite loop_body_used.
  destruct (exact_match alias (used_aliases st) n); set_solver.
Qed.

Lemma run_loop_used_mono st pairs :
  used_aliases st ⊆ used_aliases (run_loop alias st pairs).
Proof.
  revert st. induction pairs as [|p rest IH]; intros st; [done|].
  rewrite run_loop_cons. etrans; [apply loop_body_used_mono | apply IH].
Qed.

(** A consumed alias is handed out by neither branch again. *)
Lemma consumed_not_reassigned used norm a :
  a ∈ used →
  exact_match alias used a = false ∧ next_fallback alias used norm ≠ Some a.
Proof.
  intros Ha. split.
  - unfold exact_match. rewrite (bool_decide_eq_true_2 (a ∈ used)) by done.
    apply andb_false_r.
  - unfold next_fallback. intros [_ Hf]%find_some.
    rewrite (bool_decide_eq_true_2 (a ∈ used)) in Hf by done.
    by rewrite andb_false_r in Hf.
Qed.

(** Step (c): with [norm] outside the pool and no pool member starting with
    it, the iteration stores [norm] itself and takes the [else] branch. *)
Lemma assigned_no_candidate used norm :
  norm ∉ alias →
  (∀ a, a ∈ alias → String.prefix norm a = false) →
  exact_match alias used norm = false ∧ assigned alias used norm = norm.
Proof.
  intros Hnin Hno.
  assert (exact_match alias used norm = false) as Hex.
  { unfold exact_match. by rewrite bool_decide_eq_false_2. }
  split; [done|]. unfold assigned. rewrite Hex.
  assert (next_fallback alias used norm = None) as ->; [|done].
  unfold next_fallback. apply find_all_false. intros a Ha.
  by rewrite (Hno a Ha).
Qed.

End LoopFacts.

Section SorterFacts.

Implicit Types (origin normalized alias out : list string).

Lemma zip_keys origin normalized :
  length origin = length normalized → (zip origin normalized).*1 = origin.
Proof. intros H. apply fst_zip. lia. Qed.

Lemma assignments_length origin normalized alias :
  length origin = length normalized →
  length (assignments origin normalized alias) = length origin.
Proof.
  intros H. unfold assignments. rewrite trace_length, length_zip_with. lia.
Qed.

Lemma assignments_lookup origin normalized alias i o n :
  origin !! i = Some o → normalized !! i = Some n →
  assignments origin normalized alias !! i
  = Some (assigned alias (used_before origin normalized alias i) n).
Proof.
  intros Ho Hn. unfold assignments. rewrite trace_lookup.
  rewrite lookup_zip_with, Ho, Hn. done.
Qed.

(** What the dictionary holds for a key of [origin] once the loop is over. *)
Lemma final_lookup origin normalized alias i o :
  length origin = length normalized → origin !! i = Some o →
  ∃ j v, last_index o origin = Some j ∧ i ≤ j
         ∧ assignments origin normalized alias !! j = Some v
         ∧ alias_map (final_state origin normalized alias) !! o = Some v.
Proof.
  intros Hlen Ho. destruct (last_index_ge o origin i Ho) as (j & Hj & Hij).
  assert (is_Some (assignments origin normalized alias !! j)) as [v Hv].
  { apply lookup_lt_is_Some. rewrite assignments_length by done.
    apply last_index_Some in Hj as [Hj _]. by eapply lookup_lt_Some. }
  exists j, v. split_and!; [done | done | done |].
  unfold final_state. rewrite run_loop_lookup, zip_keys, Hj by done. exact Hv.
Qed.

Lemma sorter_defined origin normalized alias :
  length origin = length normalized →
  ∃ out, sorter origin normalized alias = Some out.
Proof.
  intros Hlen. apply mapM_is_Some, Forall_forall. intros o Ho.
  apply list_elem_of_lookup in Ho as [i Hi].
  destruct (final_lookup origin normalized alias i o Hlen Hi) as (j & v & _ & _ & _ & Hv).
  by exists v.
Qed.

Lemma sorter_length origin normalized alias out :
  sorter origin normalized alias = Some out → length out = length origin.
Proof. intros H. symmetry. by eapply length_mapM. Qed.

(** The comprehension reads the dictionary once per position of [origin]. *)
Lemma sorter_reads_map origin normalized alias out i o :
  sorter origin normalized alias = Some out → origin !! i = Some o →
  out !! i = alias_map (final_state origin normalized alias) !! o
  ∧ is_Some (out !! i).
Proof.
  intros H Ho. apply mapM_Some in H.
  destruct (Forall2_lookup_l _ _ _ _ _ H Ho) as (v & Hv & Hm).
  split; [|by exists v]. by rewrite Hv, <- Hm.
Qed.

Lemma sorter_lookup origin normalized alias out i o :
  length origin = length normalized →
  sorter origin normalized alias = Some out → origin !! i = Some o →
  ∃ j, last_index o origin = Some j ∧ i ≤ j
       ∧ out !! i = assignments origin normalized alias !! j
       ∧ is_Some (out !! i).
Proof.
  intros Hlen Hs Ho.
  destruct (final_lookup origin normalized alias i o Hlen Ho) as (j & v & Hj & Hij & Hv & Hm).
  destruct (sorter_reads_map _ _ _ _ _ _ Hs Ho) as [Hout Hsome].
  exists j. split_and!; [done | done | by rewrite Hout, Hm, Hv | done].
Qed.

Lemma state_before_S origin normalized alias i o n :
  origin !! i = Some o → normalized !! i = Some n →
  state_before origin normalized alias (S i)
  = loop_body alias (state_before origin normalized alias i) (o, n).
Proof.
  intros Ho Hn. unfold state_before.
  rewrite (take_S_r _ i (o, n)); [apply run_loop_snoc|].
  by rewrite lookup_zip_with, Ho, Hn.
Qed.

Lemma final_state_used_in_alias origin normalized alias a :
  a ∈ used_aliases (final_state origin normalized alias) → a ∈ alias.
Proof.
  apply run_loop_used_in_alias. intros b Hb. by apply not_elem_of_empty in Hb.
Qed.

Lemma consistent_lookup origin normalized i j o n :
  consistent origin normalized →
  origin !! i = Some o → origin !! j = Some o →
  normalized !! i = Some n → normalized !! j = Some n.
Proof.
  intros [f ->] Hi Hj. rewrite !list_lookup_fmap, Hi, Hj. done.
Qed.

Lemma consistent_length origin normalized :
  consistent origin normalized → length origin = length normalized.
Proof. intros [f ->]. by rewrite length_fmap. Qed.

End SorterFacts.

(** * The claims on [normalizer] *)

(** The three assertions of [test_normalizer]. *)
Example normalizer_test_1 : normalizer "Test String" = "test_string".
Proof. reflexivity. Qed.

Example normalizer_test_2 : normalizer "Test-String" = "teststring".
Proof. reflexivity. Qed.

Example normalizer_test_3 : normalizer "  Test  String  " = "test_string".
Proof. reflexivity. Qed.

Lemma chars_normalizer s : chars (normalizer s) = normalize_chars (chars s).
Proof.
  unfold chars, normalizer. apply String.list_ascii_of_string_of_list_ascii.
Qed.

Lemma contains_underscore_false text :
  contains_underscore text = false → Char.underscore ∉ text.
Proof.
  unfold contains_underscore. intros H Hin.
  assert (existsb Char.is_underscore text = true) as Ht; [|congruence].
  apply existsb_exists. exists Char.underscore. by rewrite <- list_elem_of_In.
Qed.

(** C7, as the code has it, for strings of code points up to U+00FF.  Every
    character of [normalizer s] is a word character that is neither
    upper-case nor whitespace, and the only punctuation character it can be
    is the underscore.  Underscores that the input already holds are word
    characters and are kept, so runs of underscores can occur; when the
    input holds no underscore, every underscore of the output stands alone
    between two other characters. *)
Theorem normalizer_output_alphabet (s : string) :
  (∀ c, c ∈ chars (normalizer s) →
     Char.is_upper c = false ∧ Char.is_space c = false ∧ Char.is_word c = true
     ∧ (Char.is_punctuation c = true → c = Char.underscore))
  ∧ (contains_underscore (chars s) = false →
     single_underscores (chars (normalizer s)) = true).
Proof.
  rewrite chars_normalizer. split.
  - intros c Hc%normalize_chars_canonical.
    pose proof (canonical_punctuation c Hc) as Hp.
    apply canonical_char_spec in Hc as (Hw & Hu & Hs). done.
  - intros H%contains_underscore_false. by apply normalize_chars_single.
Qed.

Lemma normalizer_output_alphabet_witness :
  single_underscores (chars (normalizer "  Campo (1)  Total ")) = true.
Proof.
  apply (normalizer_output_alphabet "  Campo (1)  Total "). reflexivity.
Defined.

(** C7, as the specification words it, fails: an underscore of the input
    next to whitespace gives two underscores in a row. *)
Lemma normalizer_double_underscore :
  normalizer "Field _1" = "field__1"
  ∧ no_adjacent_underscores (chars (normalizer "Field _1")) = false
  ∧ single_underscores (chars (normalizer "Field _1")) = false
  ∧ ¬ (∀ s, single_underscores (chars (normalizer s)) = true).
Proof.
  split_and!; [reflexivity | reflexivity | reflexivity |].
  intros H. specialize (H "Field _1"). vm_compute in H. discriminate.
Qed.

(** A name made of punctuation and whitespace only normalises to the empty
    string. *)
Example normalizer_punctuation_only : normalizer " (?) " = EmptyString.
Proof. reflexivity. Qed.

(** C8.  [normalizer] applied to its own output changes nothing. *)
Theorem normalizer_idempotent (s : string) :
  normalizer (normalizer s) = normalizer s.
Proof.
  unfold normalizer at 1. fold (chars (normalizer s)). rewrite chars_normalizer.
  rewrite normalize_chars_fixed; [done|].
  apply Forall_forall. intros c Hc. by eapply normalize_chars_canonical.
Qed.

(** * The claims on [sorter] *)

(** With [origin] longer than [normalized], [zip] drops the tail of [origin]
    and the final comprehension raises [KeyError]. *)
Example sorter_key_error : sorter ["Field 1"; "Field 2"] ["field_1"] [] = None.
Proof. by vm_compute. Qed.

(** C4.  On two sequences of the same length and any pool, the empty one
    included, [sorter] raises nothing and returns as many values as [origin]
    has entries. *)
Theorem sorter_total (origin normalized alias : list string) :
  length origin = length normalized →
  ∃ out, sorter origin normalized alias = Some out
         ∧ length out = length origin.
Proof.
  intros Hlen. destruct (sorter_defined origin normalized alias Hlen) as [out Hout].
  exists out. split; [done | by eapply sorter_length].
Qed.

Lemma sorter_total_witness :
  ∃ out, sorter ["Campo 1"; "Campo 2"] ["campo_1"; "campo_2"] [] = Some out
         ∧ length out = 2.
Proof. apply (sorter_total ["Campo 1"; "Campo 2"] ["campo_1"; "campo_2"] []). reflexivity. Defined.

(** C2, as the code has it.  The value at position [i] of the output is the
    one stored by the iteration at the last position [j] holding the same
    original string as [i]: the value steps a to c give for [normalized[j]]
    with the aliases consumed before [j].  When [origin] has no duplicates
    that position is [i] itself and the output is the list of per-index
    assignments, in input order. *)
Theorem sorter_output_is_last_assignment (origin normalized alias : list string) :
  length origin = length normalized →
  ∃ out, sorter origin normalized alias = Some out
    ∧ length out = length origin
    ∧ (∀ i o, origin !! i = Some o →
         ∃ j n, i ≤ j ∧ origin !! j = Some o
                ∧ (∀ k, j < k → origin !! k ≠ Some o)
                ∧ normalized !! j = Some n
                ∧ out !! i
                  = Some (assigned alias (used_before origin normalized alias j) n))
    ∧ (NoDup origin → out = assignments origin normalized alias).
Proof.
  intros Hlen. destruct (sorter_defined origin normalized alias Hlen) as [out Hout].
  exists out. split_and!; [done | by eapply sorter_length | |].
  - intros i o Ho.
    destruct (sorter_lookup _ _ _ _ _ _ Hlen Hout Ho) as (j & Hj & Hij & Hv & _).
    apply last_index_Some in Hj as [Hj Hlater].
    assert (is_Some (normalized !! j)) as [n Hn].
    { apply lookup_lt_is_Some. rewrite <- Hlen. by eapply lookup_lt_Some. }
    exists j, n. split_and!; [done..|].
    by rewrite Hv, (assignments_lookup _ _ _ _ _ _ Hj Hn).
  - intros Hnd. apply list_eq. intros i.
    destruct (origin !! i) as [o|] eqn:Ho.
    + destruct (sorter_lookup _ _ _ _ _ _ Hlen Hout Ho) as (j & Hj & _ & Hv & _).
      rewrite (last_index_NoDup _ _ _ Hnd Ho) in Hj. by injection Hj as <-.
    + apply lookup_ge_None in Ho.
      rewrite !(proj2 (lookup_ge_None _ _)); [done | |].
      * by rewrite assignments_length.
      * by rewrite (sorter_length _ _ _ _ Hout).
Qed.

Lemma sorter_output_is_last_assignment_witness :
  ∃ out, sorter ["Field 1"; "Field 1"] ["field_1"; "field_1"] ["field_1"; "field_1_bis"]
         = Some out
    ∧ length out = 2
    ∧ (∀ i o, ["Field 1"; "Field 1"] !! i = Some o →
         ∃ j n, i ≤ j ∧ ["Field 1"; "Field 1"] !! j = Some o
                ∧ (∀ k, j < k → ["Field 1"; "Field 1"] !! k ≠ Some o)
                ∧ ["field_1"; "field_1"] !! j = Some n
                ∧ out !! i
                  = Some (assigned ["field_1"; "field_1_bis"]
                            (used_before ["Field 1"; "Field 1"] ["field_1"; "field_1"]
                               ["field_1"; "field_1_bis"] j) n))
    ∧ (NoDup ["Field 1"; "Field 1"] →
       out = assignments ["Field 1"; "Field 1"] ["field_1"; "field_1"]
               ["field_1"; "field_1_bis"]).
Proof.
  apply (sorter_output_is_last_assignment
           ["Field 1"; "Field 1"] ["field_1"; "field_1"] ["field_1"; "field_1_bis"]).
  reflexivity.
Defined.

(** C2, as the specification words it, fails on a repeated original name:
    the two occurrences are assigned ["field_1"] and ["field_1_bis"] in turn,
    yet both output positions hold the second value. *)
Lemma sorter_duplicate_overwrites :
  normalizer <$> ["Field 1"; "Field 1"] = ["field_1"; "field_1"]
  ∧ assignments ["Field 1"; "Field 1"] ["field_1"; "field_1"] ["field_1"; "field_1_bis"]
    = ["field_1"; "field_1_bis"]
  ∧ sorter ["Field 1"; "Field 1"] ["field_1"; "field_1"] ["field_1"; "field_1_bis"]
    = Some ["field_1_bis"; "field_1_bis"]
  ∧ sorter ["Field 1"; "Field 1"] ["field_1"; "field_1"] ["field_1"; "field_1_bis"]
    ≠ Some (assignments ["Field 1"; "Field 1"] ["field_1"; "field_1"]
              ["field_1"; "field_1_bis"]).
Proof. split_and!; [by vm_compute..|]. vm_compute. discriminate. Qed.

(** C9.  Positions of [origin] holding the same string hold the same value
    in the output: the one stored by the iteration at the last position of
    that string, since [alias_map] is keyed by the original string and a
    later iteration overwrites an earlier one before the output is read. *)
Theorem sorter_duplicates_share_last (origin normalized alias : list string)
    (i j : nat) (o : string) :
  length origin = length normalized →
  origin !! i = Some o → origin !! j = Some o →
  ∃ out, sorter origin normalized alias = Some out
    ∧ out !! i = out !! j
    ∧ ∃ k n, i ≤ k ∧ j ≤ k ∧ origin !! k = Some o
             ∧ (∀ k', k < k' → origin !! k' ≠ Some o)
             ∧ normalized !! k = Some n
             ∧ out !! i
               = Some (assigned alias (used_before origin normalized alias k) n).
Proof.
  intros Hlen Hi Hj. destruct (sorter_defined origin normalized alias Hlen) as [out Hout].
  exists out.
  destruct (sorter_lookup _ _ _ _ _ _ Hlen Hout Hi) as (k & Hk & Hik & Hvi & _).
  destruct (sorter_lookup _ _ _ _ _ _ Hlen Hout Hj) as (k' & Hk' & Hjk & Hvj & _).
  rewrite Hk in Hk'. injection Hk' as <-.
  split_and!; [done | by rewrite Hvi, Hvj |].
  apply last_index_Some in Hk as [Hk Hlater].
  assert (is_Some (normalized !! k)) as [n Hn].
  { apply lookup_lt_is_Some. rewrite <- Hlen. by eapply lookup_lt_Some. }
  exists k, n. split_and!; [done..|].
  by rewrite Hvi, (assignments_lookup _ _ _ _ _ _ Hk Hn).
Qed.

Lemma sorter_duplicates_share_last_witness :
  ∃ out, sorter ["Field 1"; "Field 2"; "Field 1"] ["field_1"; "field_2"; "field_1"]
           ["field_1"; "field_1_bis"] = Some out
    ∧ out !! 0 = out !! 2
    ∧ ∃ k n, 0 ≤ k ∧ 2 ≤ k ∧ ["Field 1"; "Field 2"; "Field 1"] !! k = Some "Field 1"
             ∧ (∀ k', k < k' → ["Field 1"; "Field 2"; "Field 1"] !! k' ≠ Some "Field 1")
             ∧ ["field_1"; "field_2"; "field_1"] !! k = Some n
             ∧ out !! 0
               = Some (assigned ["field_1"; "field_1_bis"]
                         (used_before ["Field 1"; "Field 2"; "Field 1"]
                            ["field_1"; "field_2"; "field_1"]
                            ["field_1"; "field_1_bis"] k) n).
Proof.
  apply (sorter_duplicates_share_last
           ["Field 1"; "Field 2"; "Field 1"] ["field_1"; "field_2"; "field_1"]
           ["field_1"; "field_1_bis"] 0 2 "Field 1"); reflexivity.
Defined.

(** C3, as the code has it.  When [normalized[i]] is a member of the pool not
    consumed before iteration [i], and [origin[i]] does not occur again at a
    later position, the output at [i] is [normalized[i]]. *)
Theorem sorter_exact_match (origin normalized alias : list string)
    (i : nat) (o norm : string) :
  length origin = length normalized →
  origin !! i = Some o → normalized !! i = Some norm →
  norm ∈ alias → norm ∉ used_before origin normalized alias i →
  (∀ k, i < k → origin !! k ≠ Some o) →
  ∃ out, sorter origin normalized alias = Some out ∧ out !! i = Some norm.
Proof.
  intros Hlen Ho Hn Hin Hfree Hlast.
  destruct (sorter_defined origin normalized alias Hlen) as [out Hout].
  exists out. split; [done|].
  destruct (sorter_lookup _ _ _ _ _ _ Hlen Hout Ho) as (j & Hj & _ & Hv & _).
  rewrite (last_index_final _ _ _ Ho Hlast) in Hj. injection Hj as <-.
  rewrite Hv, (assignments_lookup _ _ _ _ _ _ Ho Hn). f_equal.
  unfold assigned, exact_match.
  by rewrite bool_decide_eq_true_2, bool_decide_eq_false_2.
Qed.

Lemma sorter_exact_match_witness :
  ∃ out, sorter ["Field 1"; "Field 2"] ["field_1"; "field_2"] ["field_2"; "field_1"]
         = Some out
         ∧ out !! 1 = Some "field_2".
Proof.
  apply (sorter_exact_match ["Field 1"; "Field 2"] ["field_1"; "field_2"]
           ["field_2"; "field_1"] 1 "Field 2" "field_2").
  - reflexivity.
  - reflexivity.
  - reflexivity.
  - apply (bool_decide_unpack _). vm_compute. exact I.
  - apply (bool_decide_unpack _). vm_compute. exact I.
  - intros [|[|k]] Hk; [lia | lia | simpl; discriminate].
Defined.

(** C3, as the specification words it, fails when [origin[i]] occurs again:
    position 0 has its normalised form in the pool and unconsumed, and yet
    holds the alias stored for the second occurrence. *)
Lemma sorter_exact_match_overwritten :
  normalizer <$> ["Field 1"; "Field 1"] = ["field_1"; "field_1"]
  ∧ ["field_1"; "field_1"] !! 0 = Some "field_1"
  ∧ "field_1" ∈ ["field_1"; "field_1_bis"]
  ∧ ("field_1" ∉ used_before ["Field 1"; "Field 1"] ["field_1"; "field_1"]
                   ["field_1"; "field_1_bis"] 0)
  ∧ (∃ out, sorter ["Field 1"; "Field 1"] ["field_1"; "field_1"]
              ["field_1"; "field_1_bis"] = Some out
            ∧ out !! 0 = Some "field_1_bis"
            ∧ out !! 0 ≠ Some "field_1").
Proof.
  split_and!; [by vm_compute | done | | |].
  - apply (bool_decide_unpack _). vm_compute. exact I.
  - apply (bool_decide_unpack _). vm_compute. exact I.
  - exists ["field_1_bis"; "field_1_bis"]. split_and!; [by vm_compute | done | done].
Qed.

(** C5.  Two positions with the same normalised form [n], where [n] is not
    in the pool and no pool member starts with [n], both hold [n] in the
    output; neither iteration adds anything to the consumed set, and [n] is
    not in it when the loop ends.  [normalized] is the normalised form of
    [origin], position by position. *)
Theorem sorter_shared_fallback (origin normalized alias : list string)
    (i j : nat) (n : string) :
  consistent origin normalized →
  normalized !! i = Some n → normalized !! j = Some n →
  n ∉ alias → (∀ a, a ∈ alias → String.prefix n a = false) →
  ∃ out, sorter origin normalized alias = Some out
    ∧ out !! i = Some n ∧ out !! j = Some n
    ∧ used_before origin normalized alias (S i) = used_before origin normalized alias i
    ∧ used_before origin normalized alias (S j) = used_before origin normalized alias j
    ∧ n ∉ used_aliases (final_state origin normalized alias).
Proof.
  intros Hcons Hi Hj Hnin Hno.
  pose proof (consistent_length _ _ Hcons) as Hlen.
  destruct (sorter_defined origin normalized alias Hlen) as [out Hout].
  assert (∀ p, normalized !! p = Some n →
            out !! p = Some n
            ∧ used_before origin normalized alias (S p)
              = used_before origin normalized alias p) as Hpos.
  { intros p Hp.
    assert (is_Some (origin !! p)) as [o Ho].
    { apply lookup_lt_is_Some. rewrite Hlen. by eapply lookup_lt_Some. }
    split.
    - destruct (sorter_lookup _ _ _ _ _ _ Hlen Hout Ho) as (k & Hk & _ & Hv & _).
      apply last_index_Some in Hk as [Hk _].
      pose proof (consistent_lookup _ _ _ _ _ _ Hcons Ho Hk Hp) as Hnk.
      rewrite Hv, (assignments_lookup _ _ _ _ _ _ Hk Hnk). f_equal.
      by apply assigned_no_candidate.
    - unfold used_before. rewrite (state_before_S _ _ _ _ _ _ Ho Hp), loop_body_used.
      by rewrite (proj1 (assigned_no_candidate alias _ n Hnin Hno)). }
  exists out. destruct (Hpos i Hi) as [? ?], (Hpos j Hj) as [? ?].
  split_and!; [done..|].
  intros Hin. by apply final_state_used_in_alias in Hin.
Qed.

Lemma sorter_shared_fallback_witness :
  ∃ out, sorter ["Field 2"; "field 2"; "Field 3"] ["field_2"; "field_2"; "field_3"]
           ["field_1"; "field_3"] = Some out
    ∧ out !! 0 = Some "field_2" ∧ out !! 1 = Some "field_2"
    ∧ used_before ["Field 2"; "field 2"; "Field 3"] ["field_2"; "field_2"; "field_3"]
        ["field_1"; "field_3"] 1
      = used_before ["Field 2"; "field 2"; "Field 3"] ["field_2"; "field_2"; "field_3"]
          ["field_1"; "field_3"] 0
    ∧ used_before ["Field 2"; "field 2"; "Field 3"] ["field_2"; "field_2"; "field_3"]
        ["field_1"; "field_3"] 2
      = used_before ["Field 2"; "field 2"; "Field 3"] ["field_2"; "field_2"; "field_3"]
          ["field_1"; "field_3"] 1
    ∧ "field_2" ∉ used_aliases
        (final_state ["Field 2"; "field 2"; "Field 3"] ["field_2"; "field_2"; "field_3"]
           ["field_1"; "field_3"]).
Proof.
  apply (sorter_shared_fallback
           ["Field 2"; "field 2"; "Field 3"] ["field_2"; "field_2"; "field_3"]
           ["field_1"; "field_3"] 0 1 "field_2").
  - exists normalizer. reflexivity.
  - reflexivity.
  - reflexivity.
  - apply (bool_decide_unpack _). vm_compute. exact I.
  - apply Forall_forall. repeat constructor.
Defined.

(** C10.  At a position whose normalised form is the empty string, with the
    empty string not in the pool, the iteration stores the first pool member
    (in pool order) that is not consumed yet, whatever it is; it stores the
    empty string exactly when every pool member is consumed already. *)
Theorem sorter_empty_norm (origin normalized alias : list string)
    (i : nat) (o : string) :
  origin !! i = Some o → normalized !! i = Some EmptyString →
  EmptyString ∉ alias →
  ∃ v, assignments origin normalized alias !! i = Some v
    ∧ alias_map (state_before origin normalized alias (S i)) !! o = Some v
    ∧ ((∃ k, alias !! k = Some v
             ∧ (v ∉ used_before origin normalized alias i)
             ∧ ∀ k' b, k' < k → alias !! k' = Some b →
                       b ∈ used_before origin normalized alias i)
       ∨ (v = EmptyString
          ∧ ∀ a, a ∈ alias → a ∈ used_before origin normalized alias i))
    ∧ (v = EmptyString ↔
       ∀ a, a ∈ alias → a ∈ used_before origin normalized alias i).
Proof.
  intros Ho Hn Hempty.
  set (used := used_before origin normalized alias i).
  exists (assigned alias used EmptyString).
  split; [by apply (assignments_lookup _ _ _ _ o)|].
  split.
  { rewrite (state_before_S _ _ _ _ _ _ Ho Hn), loop_body_alias_map.
    apply lookup_insert_eq. }
  assert (exact_match alias used EmptyString = false) as Hex.
  { unfold exact_match. by rewrite bool_decide_eq_false_2. }
  unfold assigned. rewrite Hex. unfold next_fallback.
  assert (∀ a, (String.prefix EmptyString a && negb (bool_decide (a ∈ used))) = true
               ↔ a ∉ used) as Htest.
  { intros a. assert (String.prefix EmptyString a = true) as -> by by destruct a.
    simpl. by rewrite negb_true_iff, bool_decide_eq_false. }
  assert (∀ a, (String.prefix EmptyString a && negb (bool_decide (a ∈ used))) = false
               ↔ a ∈ used) as Htest'.
  { intros a. assert (String.prefix EmptyString a = true) as -> by by destruct a.
    simpl. by rewrite negb_false_iff, bool_decide_eq_true. }
  destruct (List.find _ alias) as [a|] eqn:Hfind.
  - apply find_Some_first in Hfind as (k & Hk & Ha%Htest & Hbefore).
    assert (a ≠ EmptyString) as Hne.
    { intros ->. apply Hempty. by eapply list_elem_of_lookup_2. }
    assert (py_or (Some a) EmptyString = a) as -> by by destruct a.
    split.
    + left. exists k. split_and!; [done | done |].
      intros k' b Hlt Hb. apply Htest'. by eapply Hbefore.
    + split; [done|]. intros Hall. destruct Ha. apply Hall.
      by eapply list_elem_of_lookup_2.
  - pose proof (find_None_all _ _ Hfind) as Hall. simpl.
    assert (∀ a, a ∈ alias → a ∈ used) as Hall'.
    { intros a Ha. apply Htest'. by apply Hall. }
    split; [by right | done].
Qed.

Lemma sorter_empty_norm_witness :
  ∃ v, assignments ["Field 1"; "(?)"] ["field_1"; EmptyString] ["field_1"; "extra"] !! 1
       = Some v
    ∧ alias_map (state_before ["Field 1"; "(?)"] ["field_1"; EmptyString]
                   ["field_1"; "extra"] 2) !! "(?)" = Some v
    ∧ ((∃ k, ["field_1"; "extra"] !! k = Some v
             ∧ (v ∉ used_before ["Field 1"; "(?)"] ["field_1"; EmptyString]
                      ["field_1"; "extra"] 1)
             ∧ ∀ k' b, k' < k → ["field_1"; "extra"] !! k' = Some b →
                       b ∈ used_before ["Field 1"; "(?)"] ["field_1"; EmptyString]
                             ["field_1"; "extra"] 1)
       ∨ (v = EmptyString
          ∧ ∀ a, a ∈ ["field_1"; "extra"] →
                 a ∈ used_before ["Field 1"; "(?)"] ["field_1"; EmptyString]
                       ["field_1"; "extra"] 1))
    ∧ (v = EmptyString ↔
       ∀ a, a ∈ ["field_1"; "extra"] →
            a ∈ used_before ["Field 1"; "(?)"] ["field_1"; EmptyString]
                  ["field_1"; "extra"] 1).
Proof.
  apply (sorter_empty_norm ["Field 1"; "(?)"] ["field_1"; EmptyString]
           ["field_1"; "extra"] 1 "(?)").
  - reflexivity.
  - reflexivity.
  - apply (bool_decide_unpack _). vm_compute. exact I.
Defined.

(** C6.  The two scenarios of [test_sorter]: with the full pool every field
    gets its exact match; with ["field_2"] missing from the pool the second
    field finds neither an exact nor a prefix match and keeps its own
    normalised form, which is not marked consumed. *)
Theorem sorter_test_scenarios :
  normalizer <$> ["Field 1"; "Field 2"; "Field 3"] = ["field_1"; "field_2"; "field_3"]
  ∧ sorter ["Field 1"; "Field 2"; "Field 3"] ["field_1"; "field_2"; "field_3"]
      ["field_1"; "field_2"; "field_3"]
    = Some ["field_1"; "field_2"; "field_3"]
  ∧ sorter ["Field 1"; "Field 2"; "Field 3"] ["field_1"; "field_2"; "field_3"]
      ["field_1"; "field_3"]
    = Some ["field_1"; "field_2"; "field_3"]
  ∧ exact_match ["field_1"; "field_3"]
      (used_before ["Field 1"; "Field 2"; "Field 3"] ["field_1"; "field_2"; "field_3"]
         ["field_1"; "field_3"] 1) "field_2" = false
  ∧ next_fallback ["field_1"; "field_3"]
      (used_before ["Field 1"; "Field 2"; "Field 3"] ["field_1"; "field_2"; "field_3"]
         ["field_1"; "field_3"] 1) "field_2" = None
  ∧ ("field_2" ∉ used_aliases
       (final_state ["Field 1"; "Field 2"; "Field 3"] ["field_1"; "field_2"; "field_3"]
          ["field_1"; "field_3"])).
Proof.
  split_and!; by vm_compute.
Qed.

(** C1.  The prefix branch stores the pool member it finds without adding it
    to [used_aliases], so a later iteration finds it again: two original
    fields receive the same pool alias and nothing is marked consumed.  The
    loop worded as in the specification hands the alias out once and lets the
    second field fall back to its normalised form. *)
Theorem sorter_prefix_match_not_consumed :
  normalizer <$> ["Field 1"; "field 1"] = ["field_1"; "field_1"]
  ∧ sorter ["Field 1"; "field 1"] ["field_1"; "field_1"] ["field_1_id"]
    = Some ["field_1_id"; "field_1_id"]
  ∧ next_fallback ["field_1_id"]
      (used_before ["Field 1"; "field 1"] ["field_1"; "field_1"] ["field_1_id"] 0)
      "field_1" = Some "field_1_id"
  ∧ next_fallback ["field_1_id"]
      (used_before ["Field 1"; "field 1"] ["field_1"; "field_1"] ["field_1_id"] 1)
      "field_1" = Some "field_1_id"
  ∧ ("field_1_id" ∉ used_aliases
       (final_state ["Field 1"; "field 1"] ["field_1"; "field_1"] ["field_1_id"]))
  ∧ spec_align ["Field 1"; "field 1"] ["field_1"; "field_1"] ["field_1_id"]
    = Some ["field_1_id"; "field_1"].
Proof.
  split_and!; by vm_compute.
Qed.

(** * Further properties of [normalizer] *)

Section MoreCharFacts.

Local Ltac by_cases c :=
  destruct c as [[] [] [] [] [] [] [] []]; vm_compute; try done; auto.

Lemma to_lower_word c : Char.is_word (Char.to_lower c) = Char.is_word c.
Proof. by_cases c. Qed.

Lemma to_lower_space c : Char.is_space (Char.to_lower c) = Char.is_space c.
Proof. by_cases c. Qed.

Lemma to_lower_alnum c : is_alnum (Char.to_lower c) = is_alnum c.
Proof. by_cases c. Qed.

Lemma space_to_lower c : Char.is_space c = true → Char.to_lower c = c.
Proof. by_cases c. Qed.

Lemma space_not_alnum c : Char.is_space c = true → is_alnum c = false.
Proof. by_cases c. Qed.

Lemma alnum_word c : is_alnum c = true → Char.is_word c = true.
Proof. by_cases c. Qed.

Lemma alnum_underscore : is_alnum Char.underscore = false.
Proof. reflexivity. Qed.

Lemma tab_is_space c : is_tab c = true → Char.is_space c = true.
Proof. by_cases c. Qed.

Lemma is_tab_eq c : is_tab c = true ↔ c = tab.
Proof. split; [by_cases c | by intros ->]. Qed.

End MoreCharFacts.

Section NormalizerMore.

Implicit Types (text : list ascii) (c : ascii).

Lemma chars_of_list text : chars (String.string_of_list_ascii text) = text.
Proof. apply String.list_ascii_of_string_of_list_ascii. Qed.

Lemma of_list_chars s : String.string_of_list_ascii (chars s) = s.
Proof. apply String.string_of_list_ascii_of_string. Qed.

Lemma chars_inj s1 s2 : chars s1 = chars s2 → s1 = s2.
Proof. intros H. by rewrite <- (of_list_chars s1), H, of_list_chars. Qed.

Lemma chars_app s1 s2 : chars (s1 +:+ s2) = chars s1 ++ chars s2.
Proof. induction s1 as [|c s1 IH]; simpl; [done | by rewrite <- IH]. Qed.

Lemma normalizer_chars_eq s1 s2 :
  normalize_chars (chars s1) = normalize_chars (chars s2) →
  normalizer s1 = normalizer s2.
Proof. unfold normalizer, chars. by intros ->. Qed.

Lemma lower_app text1 text2 : lower (text1 ++ text2) = lower text1 ++ lower text2.
Proof. apply map_app. Qed.

Lemma remove_specials_app text1 text2 :
  remove_specials (text1 ++ text2) = remove_specials text1 ++ remove_specials text2.
Proof. apply List.filter_app. Qed.

Lemma lower_spaces text :
  Forall (λ c, Char.is_space c = true) text → lower text = text.
Proof.
  induction 1 as [|c rest Hc _ IH]; simpl; [done|].
  by rewrite (space_to_lower c Hc), IH.
Qed.

Lemma remove_specials_spaces text :
  Forall (λ c, Char.is_space c = true) text → remove_specials text = text.
Proof.
  induction 1 as [|c rest Hc _ IH]; simpl; [done|].
  rewrite Hc, orb_true_r. by rewrite IH.
Qed.

Lemma lstrip_spaces_app ws text :
  Forall (λ c, Char.is_space c = true) ws → lstrip (ws ++ text) = lstrip text.
Proof. induction 1 as [|c rest Hc _ IH]; simpl; [done | by rewrite Hc]. Qed.

Lemma lstrip_nonspace_app text1 text2 :
  Exists (λ c, Char.is_space c = false) text1 →
  lstrip (text1 ++ text2) = lstrip text1 ++ text2.
Proof.
  induction text1 as [|c rest IH]; [by intros ?%Exists_nil|].
  intros H. simpl. destruct (Char.is_space c) eqn:Hc; [|done].
  apply IH. apply Exists_cons in H as [H|H]; [congruence | done].
Qed.

Lemma rstrip_app_spaces text ws :
  Forall (λ c, Char.is_space c = true) ws → rstrip (text ++ ws) = rstrip text.
Proof.
  intros H. unfold rstrip. rewrite reverse_app, lstrip_spaces_app; [done|].
  by apply Forall_reverse.
Qed.

Lemma rstrip_app_nonspace text1 text2 :
  Exists (λ c, Char.is_space c = false) text2 →
  rstrip (text1 ++ text2) = text1 ++ rstrip text2.
Proof.
  intros H. unfold rstrip. rewrite reverse_app, lstrip_nonspace_app.
  - by rewrite reverse_app, reverse_involutive.
  - apply Exists_exists. apply Exists_exists in H as (c & Hc & Hn).
    exists c. split; [by apply elem_of_reverse | done].
Qed.

Lemma all_or_some_space text :
  Forall (λ c, Char.is_space c = true) text
  ∨ Exists (λ c, Char.is_space c = false) text.
Proof.
  induction text as [|c rest [IH|IH]]; [by left | |].
  - destruct (Char.is_space c) eqn:Hc; [left; by constructor | right; by left].
  - right. by right.
Qed.

Lemma lstrip_all_spaces text :
  Forall (λ c, Char.is_space c = true) text → lstrip text = [].
Proof. induction 1 as [|c rest Hc _ IH]; simpl; [done | by rewrite Hc]. Qed.

Lemma strip_all_spaces text :
  Forall (λ c, Char.is_space c = true) text → strip text = [].
Proof. intros H. unfold strip. by rewrite (lstrip_all_spaces text H). Qed.

Lemma strip_nil_inv text :
  strip text = [] → Forall (λ c, Char.is_space c = true) text.
Proof.
  unfold strip. intros H.
  destruct (rstrip_split (lstrip text)) as [post [E Hpost]]. rewrite H in E.
  simpl in E. pose proof (lstrip_head text) as Hh. rewrite E in Hh.
  assert (post = []) as ->.
  { destruct Hpost as [|c post Hc _]; [done|]. simpl in Hh. congruence. }
  destruct (lstrip_split text) as [pre [E' Hpre]]. rewrite E in E'.
  rewrite E'. by rewrite app_nil_r.
Qed.

(** Whitespace around the text is dropped by [strip]. *)
Lemma strip_outer_spaces ws1 text ws2 :
  Forall (λ c, Char.is_space c = true) ws1 →
  Forall (λ c, Char.is_space c = true) ws2 →
  strip (ws1 ++ text ++ ws2) = strip text.
Proof.
  intros H1 H2. unfold strip. rewrite lstrip_spaces_app by done.
  destruct (all_or_some_space text) as [Hall|Hsome].
  - rewrite lstrip_all_spaces by (by apply Forall_app).
    by rewrite (lstrip_all_spaces text Hall).
  - rewrite lstrip_nonspace_app by done. by apply rstrip_app_spaces.
Qed.

End NormalizerMore.

Section NormalizerExtras.

Implicit Types (text : list ascii) (c : ascii) (s : string).

(** X1.  The strings [normalizer] leaves unchanged are exactly those made
    of word characters that are neither upper-case nor whitespace. *)
Theorem normalizer_fixed_iff s :
  normalizer s = s ↔ Forall (λ c, canonical_char c = true) (chars s).
Proof.
  split.
  - intros H. apply Forall_forall. intros c Hc. rewrite <- H in Hc.
    rewrite chars_normalizer in Hc. by eapply normalize_chars_canonical.
  - intros H. apply chars_inj. rewrite chars_normalizer.
    by apply normalize_chars_fixed.
Qed.

Lemma sub_spaces_nil_inv text : sub_spaces false text = [] → text = [].
Proof.
  destruct text as [|c rest]; [done|]. simpl. by destruct (Char.is_space c).
Qed.

(** X2.  [normalizer] returns the empty string exactly when the input holds
    no word character (no letter, digit or underscore). *)
Theorem normalizer_empty_iff s :
  normalizer s = EmptyString ↔ Forall (λ c, Char.is_word c = false) (chars s).
Proof.
  assert (normalizer s = EmptyString ↔ normalize_chars (chars s) = []) as ->.
  { rewrite <- chars_normalizer. split; [by intros -> | intros H].
    by apply chars_inj. }
  unfold normalize_chars. split.
  - intros H%sub_spaces_nil_inv%strip_nil_inv.
    apply Forall_forall. intros c Hc. rewrite <- to_lower_word.
    destruct (Char.is_word (Char.to_lower c)) eqn:Hw; [|done].
    assert (Char.to_lower c ∈ remove_specials (lower (chars s))) as Hin.
    { apply elem_of_remove_specials. split; [|by left].
      unfold lower. by apply (list_elem_of_fmap_2 Char.to_lower). }
    rewrite Forall_forall in H. specialize (H _ Hin).
    by rewrite (word_not_space _ Hw) in H.
  - intros H. rewrite strip_all_spaces; [done|].
    apply Forall_forall. intros c [Hc [Hw|Hs]]%elem_of_remove_specials; [|done].
    apply elem_of_lower in Hc as (c0 & Hc0 & ->). rewrite to_lower_word in Hw.
    rewrite Forall_forall in H. by rewrite (H _ Hc0) in Hw.
Qed.

Lemma length_lstrip text : length (lstrip text) ≤ length text.
Proof.
  destruct (lstrip_split text) as [pre [E _]]. rewrite E at 2.
  rewrite length_app. lia.
Qed.

Lemma length_strip text : length (strip text) ≤ length text.
Proof.
  unfold strip, rstrip. rewrite length_reverse.
  etrans; [apply length_lstrip|]. rewrite length_reverse. apply length_lstrip.
Qed.

Lemma length_sub_spaces in_run text :
  length (sub_spaces in_run text) ≤ length text.
Proof.
  revert in_run. induction text as [|c rest IH]; intros in_run; simpl; [done|].
  destruct (Char.is_space c); [destruct in_run|]; simpl;
    [pose proof (IH true) | pose proof (IH true) | pose proof (IH false)]; lia.
Qed.

(** X3.  The normalised name is never longer than the input. *)
Theorem normalizer_length_le s :
  length (chars (normalizer s)) ≤ length (chars s).
Proof.
  rewrite chars_normalizer. unfold normalize_chars.
  etrans; [apply length_sub_spaces|]. etrans; [apply length_strip|].
  unfold remove_specials. etrans; [apply List.filter_length_le|].
  unfold lower. by rewrite length_map.
Qed.

(** X4.  Whitespace before and after the name does not matter. *)
Theorem normalizer_outer_whitespace w1 s w2 :
  Forall (λ c, Char.is_space c = true) (chars w1) →
  Forall (λ c, Char.is_space c = true) (chars w2) →
  normalizer (w1 +:+ s +:+ w2) = normalizer s.
Proof.
  intros H1 H2. apply normalizer_chars_eq. rewrite !chars_app.
  unfold normalize_chars. rewrite !lower_app, !remove_specials_app.
  rewrite (lower_spaces _ H1), (lower_spaces _ H2).
  rewrite (remove_specials_spaces _ H1), (remove_specials_spaces _ H2).
  by rewrite strip_outer_spaces.
Qed.

Lemma normalizer_outer_whitespace_witness :
  normalizer ("  " +:+ "Campo 1" +:+ " ") = normalizer "Campo 1".
Proof.
  apply (normalizer_outer_whitespace "  " "Campo 1" " "); repeat constructor.
Defined.

Lemma remove_specials_lower text :
  remove_specials (lower text) = lower (remove_specials text).
Proof.
  unfold remove_specials, lower. induction text as [|c rest IH]; simpl; [done|].
  rewrite to_lower_word, to_lower_space.
  destruct (Char.is_word c || Char.is_space c); simpl; by rewrite IH.
Qed.

(** X5.  For names of code points up to U+00FF, where lower-casing works
    character by character: characters that are neither word characters nor
    whitespace never influence the result, and two names that agree once
    those characters are deleted have the same normalised form. *)
Theorem normalizer_ignores_specials s1 s2 :
  remove_specials (chars s1) = remove_specials (chars s2) →
  normalizer s1 = normalizer s2.
Proof.
  intros H. apply normalizer_chars_eq. unfold normalize_chars.
  by rewrite !remove_specials_lower, H.
Qed.

Lemma normalizer_ignores_specials_witness :
  normalizer "Test-String" = normalizer "(Test)String.".
Proof. apply (normalizer_ignores_specials "Test-String" "(Test)String."). reflexivity. Defined.

Lemma filter_alnum_spaces text :
  Forall (λ c, Char.is_space c = true) text → List.filter is_alnum text = [].
Proof.
  induction 1 as [|c rest Hc _ IH]; simpl; [done|].
  by rewrite (space_not_alnum c Hc).
Qed.

Lemma filter_alnum_strip text :
  List.filter is_alnum (strip text) = List.filter is_alnum text.
Proof.
  unfold strip.
  destruct (lstrip_split text) as [pre [E1 Hpre]].
  destruct (rstrip_split (lstrip text)) as [post [E2 Hpost]].
  rewrite E1 at 2. rewrite E2 at 2.
  rewrite !List.filter_app, (filter_alnum_spaces _ Hpre), (filter_alnum_spaces _ Hpost).
  by rewrite app_nil_r.
Qed.

Lemma filter_alnum_sub_spaces in_run text :
  List.filter is_alnum (sub_spaces in_run text) = List.filter is_alnum text.
Proof.
  revert in_run. induction text as [|c rest IH]; intros in_run; simpl; [done|].
  destruct (Char.is_space c) eqn:Hc.
  - rewrite (space_not_alnum c Hc). destruct in_run; simpl; by rewrite ?alnum_underscore, IH.
  - simpl. by rewrite IH.
Qed.

Lemma filter_alnum_remove_specials text :
  List.filter is_alnum (remove_specials text) = List.filter is_alnum text.
Proof.
  unfold remove_specials. induction text as [|c rest IH]; simpl; [done|].
  destruct (is_alnum c) eqn:Ha.
  - rewrite (alnum_word c Ha). simpl. by rewrite Ha, IH.
  - destruct (Char.is_word c || Char.is_space c); simpl; by rewrite ?Ha, IH.
Qed.

(** X6.  No letter or digit is lost, added or moved: the alphanumeric
    characters of the result are those of the lower-cased input, in the
    same order. *)
Theorem normalizer_keeps_alnum s :
  List.filter is_alnum (chars (normalizer s))
  = List.filter is_alnum (lower (chars s)).
Proof.
  rewrite chars_normalizer. unfold normalize_chars.
  by rewrite filter_alnum_sub_spaces, filter_alnum_strip, filter_alnum_remove_specials.
Qed.

End NormalizerExtras.

Section WhitespaceRuns.

Implicit Types (text ws : list ascii) (c : ascii).

Lemma sub_spaces_app in_run text1 text2 :
  sub_spaces in_run (text1 ++ text2)
  = sub_spaces in_run text1
    ++ sub_spaces (from_option Char.is_space in_run (last text1)) text2.
Proof.
  revert in_run. induction text1 as [|c rest IH]; intros in_run; [done|].
  rewrite last_cons. simpl.
  destruct (Char.is_space c) eqn:Hc.
  - destruct in_run; rewrite IH; destruct (last rest); simpl; by rewrite ?Hc.
  - rewrite IH. destruct (last rest); simpl; by rewrite ?Hc.
Qed.

Lemma sub_spaces_run in_run ws :
  ws ≠ [] → Forall (λ c, Char.is_space c = true) ws →
  sub_spaces in_run ws = (if in_run then [] else [Char.underscore])
  ∧ from_option Char.is_space in_run (last ws) = true.
Proof.
  intros Hne H. revert in_run Hne.
  induction H as [|c rest Hc Hrest IH]; intros in_run Hne; [done|].
  rewrite last_cons. simpl. rewrite Hc.
  destruct rest as [|d rest'].
  - simpl. by destruct in_run.
  - destruct (IH true) as [E1 E2]; [done|]. rewrite E1.
    split; [by destruct in_run|].
    destruct (last (d :: rest')) eqn:El; simpl in *; done.
Qed.

(** The normal form of a text with a whitespace run in the middle does not
    depend on which (non-empty) run it is. *)
Lemma normalize_run_independent text1 ws1 ws2 text2 :
  ws1 ≠ [] → ws2 ≠ [] →
  Forall (λ c, Char.is_space c = true) ws1 →
  Forall (λ c, Char.is_space c = true) ws2 →
  sub_spaces false (strip (text1 ++ ws1 ++ text2))
  = sub_spaces false (strip (text1 ++ ws2 ++ text2)).
Proof.
  intros Hne1 Hne2 H1 H2.
  destruct (all_or_some_space text1) as [Hall1|Hsome1].
  { assert (∀ ws, Forall (λ c, Char.is_space c = true) ws →
              strip (text1 ++ ws ++ text2) = strip text2) as Hform.
    { intros ws Hws.
      replace (text1 ++ ws ++ text2) with ((text1 ++ ws) ++ text2 ++ [])
        by (by rewrite app_nil_r, (assoc_L (++))).
      apply strip_outer_spaces; [by apply Forall_app | done]. }
    by rewrite !Hform. }
  destruct (all_or_some_space text2) as [Hall2|Hsome2].
  { assert (∀ ws, Forall (λ c, Char.is_space c = true) ws →
              strip (text1 ++ ws ++ text2) = strip text1) as Hform.
    { intros ws Hws. apply (strip_outer_spaces [] text1 (ws ++ text2));
        [done | by apply Forall_app]. }
    by rewrite !Hform. }
  assert (∀ ws, ws ≠ [] → Forall (λ c, Char.is_space c = true) ws →
            sub_spaces false (strip (text1 ++ ws ++ text2))
            = sub_spaces false (lstrip text1)
              ++ (if from_option Char.is_space false (last (lstrip text1))
                  then [] else [Char.underscore])
              ++ sub_spaces true (rstrip text2)) as Hform.
  { intros ws Hne Hws. unfold strip.
    rewrite lstrip_nonspace_app by done.
    rewrite (assoc_L (++) (lstrip text1)), rstrip_app_nonspace by done.
    rewrite <- (assoc_L (++)), !sub_spaces_app.
    destruct (sub_spaces_run
                (from_option Char.is_space false (last (lstrip text1))) ws Hne Hws)
      as [-> ->].
    done. }
  by rewrite !Hform.
Qed.

(** X7.  Inside a name, any non-empty run of whitespace characters can be
    replaced by any other without changing the normalised form. *)
Theorem normalizer_whitespace_runs (a w1 w2 b : string) :
  w1 ≠ EmptyString → w2 ≠ EmptyString →
  Forall (λ c, Char.is_space c = true) (chars w1) →
  Forall (λ c, Char.is_space c = true) (chars w2) →
  normalizer (a +:+ w1 +:+ b) = normalizer (a +:+ w2 +:+ b).
Proof.
  intros Hne1 Hne2 H1 H2. apply normalizer_chars_eq. rewrite !chars_app.
  unfold normalize_chars. rewrite !lower_app, !remove_specials_app.
  rewrite (lower_spaces _ H1), (lower_spaces _ H2).
  rewrite (remove_specials_spaces _ H1), (remove_specials_spaces _ H2).
  apply normalize_run_independent; try done.
  - by destruct w1.
  - by destruct w2.
Qed.

Lemma normalizer_whitespace_runs_witness :
  normalizer ("Campo" +:+ " " +:+ "1") = normalizer ("Campo" +:+ "    " +:+ "1").
Proof.
  apply (normalizer_whitespace_runs "Campo" " " "    " "1");
    [done | done | repeat constructor | repeat constructor].
Defined.

End WhitespaceRuns.

(** * Further properties of [sorter] *)

Section LoopMore.

Variable alias : list string.

Local Arguments loop_body : simpl never.

Implicit Types (st : loop_state) (pairs : list (string * string)).

Lemma prefix_refl (s : string) : String.prefix s s = true.
Proof.
  induction s as [|c s IH]; simpl; [done|].
  by destruct (Ascii.ascii_dec c c).
Qed.

(** An iteration stores the normalised form itself, or an unconsumed pool
    member that starts with it. *)
Lemma assigned_cases used norm :
  assigned alias used norm = norm
  ∨ (assigned alias used norm ∈ alias
     ∧ (assigned alias used norm ∉ used)
     ∧ String.prefix norm (assigned alias used norm) = true).
Proof.
  unfold assigned. destruct (exact_match alias used norm); [by left|].
  unfold next_fallback.
  destruct (List.find _ alias) as [a|] eqn:Hfind; [|by left].
  apply find_some in Hfind as [Hin Htest].
  apply andb_true_iff in Htest as [Hpre Hfree].
  apply negb_true_iff, bool_decide_eq_false in Hfree.
  destruct a as [|c a]; [by left|]. right. simpl.
  split_and!; [by apply list_elem_of_In | done | done].
Qed.

Lemma run_loop_app st pairs1 pairs2 :
  run_loop alias st (pairs1 ++ pairs2)
  = run_loop alias (run_loop alias st pairs1) pairs2.
Proof. apply foldl_app. Qed.

(** What the consumed set holds after some iterations: what it held before,
    and the normalised forms met that are pool members. *)
Lemma run_loop_used_iff st pairs a :
  a ∈ used_aliases (run_loop alias st pairs)
  ↔ a ∈ used_aliases st ∨ (a ∈ alias ∧ a ∈ pairs.*2).
Proof.
  revert st. induction pairs as [|[o n] rest IH]; intros st.
  - simpl. split; [by left | intros [?|[_ ?%elem_of_nil]]; done].
  - rewrite run_loop_cons, IH, loop_body_used, fmap_cons, elem_of_cons. simpl.
    destruct (exact_match alias (used_aliases st) n) eqn:E.
    + apply andb_true_iff in E as [Hin%bool_decide_eq_true _].
      rewrite elem_of_union, elem_of_singleton. split.
      * intros [[->|?]|[? ?]]; [right; split; [done | by left] | by left
                               | right; split; [done | by right]].
      * intros [?|[? [->|?]]]; [left; by right | left; by left | by right].
    + split.
      * intros [?|[? ?]]; [by left | right; split; [done | by right]].
      * intros [?|[Ha [->|?]]]; [by left | | by right].
        left. unfold exact_match in E.
        rewrite (bool_decide_eq_true_2 _ Ha) in E. simpl in E.
        by apply negb_false_iff, bool_decide_eq_true in E.
Qed.

End LoopMore.

Section SorterMore.

Implicit Types (origin normalized alias out : list string).

Lemma zip_fst_take origin normalized :
  (zip origin normalized).*1 = take (length normalized) origin.
Proof.
  revert normalized. induction origin as [|o origin IH]; intros [|n normalized];
    simpl; [done | done | done | by rewrite IH].
Qed.

Lemma zip_snd_take origin normalized :
  (zip origin normalized).*2 = take (length origin) normalized.
Proof.
  revert normalized. induction origin as [|o origin IH]; intros [|n normalized];
    simpl; [done | done | done | by rewrite IH].
Qed.

Lemma zip_take_r origin normalized :
  zip origin (take (length origin) normalized) = zip origin normalized.
Proof.
  revert normalized. induction origin as [|o origin IH]; intros [|n normalized];
    simpl; [done | done | done | by rewrite IH].
Qed.

Lemma used_before_mono origin normalized alias i k :
  i ≤ k →
  used_before origin normalized alias i ⊆ used_before origin normalized alias k.
Proof.
  intros Hik. unfold used_before, state_before.
  replace k with (i + (k - i)) by lia.
  rewrite <- take_take_drop, run_loop_app. apply run_loop_used_mono.
Qed.

Lemma used_before_iff origin normalized alias i a :
  a ∈ used_before origin normalized alias i
  ↔ a ∈ alias ∧ a ∈ take i (take (length origin) normalized).
Proof.
  unfold used_before, state_before. rewrite run_loop_used_iff.
  rewrite zip_with_take, zip_snd_take, length_take, !take_take.
  replace ((i `min` length origin) `min` i) with (i `min` length origin) by lia.
  split; [intros [?%not_elem_of_empty|?]; done | by right].
Qed.

(** With [normalized] a function of [origin], the output at [i] is what the
    matching steps give for [normalized[i]] against the aliases consumed
    before some position [j] at or after [i]. *)
Lemma sorter_consistent_lookup origin normalized alias i n :
  consistent origin normalized → normalized !! i = Some n →
  ∃ out j, sorter origin normalized alias = Some out
    ∧ length out = length origin ∧ i ≤ j
    ∧ normalized !! j = Some n
    ∧ out !! i = Some (assigned alias (used_before origin normalized alias j) n).
Proof.
  intros Hcons Hn. pose proof (consistent_length _ _ Hcons) as Hlen.
  destruct (sorter_defined origin normalized alias Hlen) as [out Hout].
  assert (is_Some (origin !! i)) as [o Ho].
  { apply lookup_lt_is_Some. rewrite Hlen. by eapply lookup_lt_Some. }
  destruct (sorter_lookup _ _ _ _ _ _ Hlen Hout Ho) as (j & Hj & Hij & Hv & _).
  apply last_index_Some in Hj as [Hj _].
  pose proof (consistent_lookup _ _ _ _ _ _ Hcons Ho Hj Hn) as Hnj.
  exists out, j. split_and!; [done | by eapply sorter_length | done | done |].
  by rewrite Hv, (assignments_lookup _ _ _ _ _ _ Hj Hnj).
Qed.

End SorterMore.

Section SorterExtras.

Implicit Types (origin normalized alias out : list string).

(** X8.  [sorter] raises [KeyError] exactly when some entry of [origin] does
    not occur among its first [len(normalized)] entries, the only ones the
    loop visits. *)
Theorem sorter_key_error_iff origin normalized alias :
  sorter origin normalized alias = None
  ↔ ∃ o, o ∈ origin ∧ o ∉ take (length normalized) origin.
Proof.
  unfold sorter. rewrite mapM_None, Exists_exists.
  assert (∀ o, alias_map (run_loop alias initial_state (zip origin normalized)) !! o
               = None ↔ o ∉ take (length normalized) origin) as Hkey.
  { intros o. rewrite run_loop_lookup, zip_fst_take.
    destruct (last_index o (take (length normalized) origin)) as [j|] eqn:E.
    - apply last_index_Some in E as [Hj _]. split.
      + intros Hnone. apply lookup_ge_None in Hnone.
        rewrite trace_length, length_zip_with in Hnone.
        apply lookup_lt_Some in Hj. rewrite length_take in Hj. lia.
      + intros Hnin. destruct Hnin. by eapply list_elem_of_lookup_2.
    - apply last_index_None in E. split; [done | intros _; apply lookup_empty]. }
  split; intros (o & Ho & H); exists o; (split; [done | by apply Hkey]).
Qed.

(** X9.  Entries of [normalized] beyond the length of [origin] are never
    looked at. *)
Theorem sorter_ignores_extra_normalized origin normalized alias :
  sorter origin (take (length origin) normalized) alias
  = sorter origin normalized alias.
Proof. unfold sorter. by rewrite zip_take_r. Qed.

(** X10.  When the loop ends, the consumed aliases are exactly the pool
    members that are the normalised form of a visited field. *)
Theorem sorter_consumed_iff origin normalized alias a :
  a ∈ used_aliases (final_state origin normalized alias)
  ↔ a ∈ alias ∧ a ∈ take (length origin) normalized.
Proof.
  unfold final_state. rewrite run_loop_used_iff, zip_snd_take.
  split; [intros [?%not_elem_of_empty|?]; done | by right].
Qed.

(** X11.  A pool alias that is the normalised form of a field is never given
    to a later field with a different normalised form. *)
Theorem sorter_exact_alias_exclusive origin normalized alias i k n :
  consistent origin normalized →
  i < k → normalized !! i = Some n → n ∈ alias →
  ∃ out, sorter origin normalized alias = Some out
         ∧ (out !! k = Some n → normalized !! k = Some n).
Proof.
  intros Hcons Hik Hn Hin. pose proof (consistent_length _ _ Hcons) as Hlen.
  destruct (sorter_defined origin normalized alias Hlen) as [out Hout].
  exists out. split; [done|]. intros Hk.
  assert (is_Some (normalized !! k)) as [nk Hnk].
  { apply lookup_lt_is_Some. rewrite <- Hlen, <- (sorter_length _ _ _ _ Hout).
    by eapply lookup_lt_Some. }
  destruct (sorter_consistent_lookup origin normalized alias k nk Hcons Hnk)
    as (out' & j & Hout' & _ & Hkj & _ & Hv).
  rewrite Hout in Hout'. injection Hout' as <-. rewrite Hk in Hv.
  injection Hv as Hv.
  destruct (assigned_cases alias (used_before origin normalized alias j) nk)
    as [E|(_ & Hfree & _)]; [congruence|].
  destruct Hfree. rewrite <- Hv. apply used_before_iff. split; [done|].
  apply elem_of_take. exists i. split; [|lia].
  apply lookup_take_Some. split; [done|]. rewrite Hlen. by eapply lookup_lt_Some.
Qed.

Lemma sorter_exact_alias_exclusive_witness :
  ∃ out, sorter ["Field 1"; "field 1"; "Field 1 bis"]
           ["field_1"; "field_1"; "field_1_bis"] ["field_1"; "field_1_bis"] = Some out
         ∧ (out !! 2 = Some "field_1" →
            ["field_1"; "field_1"; "field_1_bis"] !! 2 = Some "field_1").
Proof.
  apply (sorter_exact_alias_exclusive ["Field 1"; "field 1"; "Field 1 bis"]
           ["field_1"; "field_1"; "field_1_bis"] ["field_1"; "field_1_bis"]
           0 2 "field_1").
  - exists normalizer. reflexivity.
  - lia.
  - reflexivity.
  - apply (bool_decide_unpack _). vm_compute. exact I.
Defined.

(** X12.  Every value of the output starts with the normalised form of its
    field, and is either that normalised form itself or a pool member. *)
Theorem sorter_output_prefix origin normalized alias i n :
  consistent origin normalized → normalized !! i = Some n →
  ∃ out v, sorter origin normalized alias = Some out
    ∧ out !! i = Some v
    ∧ String.prefix n v = true
    ∧ (v = n ∨ v ∈ alias).
Proof.
  intros Hcons Hn.
  destruct (sorter_consistent_lookup origin normalized alias i n Hcons Hn)
    as (out & j & Hout & _ & _ & _ & Hv).
  exists out, (assigned alias (used_before origin normalized alias j) n).
  split_and!; [done | done | |].
  - destruct (assigned_cases alias (used_before origin normalized alias j) n)
      as [->|(_ & _ & Hp)]; [apply prefix_refl | done].
  - destruct (assigned_cases alias (used_before origin normalized alias j) n)
      as [->|(Hin & _ & _)]; [by left | by right].
Qed.

Lemma sorter_output_prefix_witness :
  ∃ out v, sorter ["Field 1"; "Field 2"] ["field_1"; "field_2"] ["field_1_id"] = Some out
    ∧ out !! 0 = Some v
    ∧ String.prefix "field_1" v = true
    ∧ (v = "field_1" ∨ v ∈ ["field_1_id"]).
Proof.
  apply (sorter_output_prefix ["Field 1"; "Field 2"] ["field_1"; "field_2"]
           ["field_1_id"] 0 "field_1").
  - exists normalizer. reflexivity.
  - reflexivity.
Defined.

(** The output is [normalized] as soon as every iteration stores the
    normalised form it is given. *)
Lemma sorter_returns_normalized origin normalized alias :
  consistent origin normalized →
  (∀ j n, normalized !! j = Some n →
          assigned alias (used_before origin normalized alias j) n = n) →
  sorter origin normalized alias = Some normalized.
Proof.
  intros Hcons Hsame. pose proof (consistent_length _ _ Hcons) as Hlen.
  destruct (sorter_defined origin normalized alias Hlen) as [out Hout].
  rewrite Hout. f_equal. apply list_eq. intros i.
  destruct (normalized !! i) as [n|] eqn:Hn.
  - destruct (sorter_consistent_lookup origin normalized alias i n Hcons Hn)
      as (out' & j & Hout' & _ & _ & Hnj & Hv).
    rewrite Hout in Hout'. injection Hout' as <-.
    by rewrite Hv, (Hsame j n Hnj).
  - apply lookup_ge_None. apply lookup_ge_None in Hn.
    rewrite (sorter_length _ _ _ _ Hout). lia.
Qed.

(** X13.  With an empty pool every field keeps its normalised form. *)
Theorem sorter_empty_pool origin normalized :
  consistent origin normalized →
  sorter origin normalized [] = Some normalized.
Proof.
  intros Hcons. apply sorter_returns_normalized; [done|]. intros j n _.
  apply assigned_no_candidate; [apply not_elem_of_nil|].
  by intros a ?%elem_of_nil.
Qed.

Lemma sorter_empty_pool_witness :
  sorter ["Campo 1"; "Campo 2"] ["campo_1"; "campo_2"] []
  = Some ["campo_1"; "campo_2"].
Proof.
  apply (sorter_empty_pool ["Campo 1"; "Campo 2"] ["campo_1"; "campo_2"]).
  exists normalizer. reflexivity.
Defined.

(** X14.  When the normalised forms are pairwise distinct and all of them
    are pool members, every field gets its exact match, whatever else the
    pool holds and in whatever order. *)
Theorem sorter_all_exact origin normalized alias :
  consistent origin normalized → NoDup normalized →
  (∀ n, n ∈ normalized → n ∈ alias) →
  sorter origin normalized alias = Some normalized.
Proof.
  intros Hcons Hnd Hall. apply sorter_returns_normalized; [done|].
  intros j n Hn. unfold assigned, exact_match.
  rewrite bool_decide_eq_true_2 by (apply Hall; by eapply list_elem_of_lookup_2).
  rewrite bool_decide_eq_false_2; [done|].
  intros (_ & Hin)%used_before_iff.
  apply elem_of_take in Hin as (j' & Hj' & Hlt).
  apply lookup_take_Some in Hj' as [Hj' _].
  pose proof (NoDup_lookup _ _ _ _ Hnd Hn Hj'). lia.
Qed.

Lemma sorter_all_exact_witness :
  sorter ["Field 1"; "Field 2"] ["field_1"; "field_2"]
    ["field_2_bis"; "field_2"; "field_1"]
  = Some ["field_1"; "field_2"].
Proof.
  apply (sorter_all_exact ["Field 1"; "Field 2"] ["field_1"; "field_2"]
           ["field_2_bis"; "field_2"; "field_1"]).
  - exists normalizer. reflexivity.
  - apply (bool_decide_unpack _). vm_compute. exact I.
  - apply Forall_forall. repeat constructor.
Defined.

End SorterExtras.

(** * [sorter] on the pool read from the spreadsheet *)

Section PoolCells.

Implicit Types (origin normalized alias : list string) (pool : list cell).

Lemma str_in_strings norm alias :
  str_in norm (Str <$> alias) = bool_decide (norm ∈ alias).
Proof.
  unfold str_in. induction alias as [|a rest IH]; [done|].
  rewrite fmap_cons. cbn [existsb]. rewrite IH.
  destruct (decide (norm = a)) as [->|Hne].
  - rewrite (bool_decide_eq_true_2 (a = a)) by done.
    by rewrite (bool_decide_eq_true_2 (a ∈ a :: rest)) by left.
  - rewrite (bool_decide_eq_false_2 (norm = a)) by done. simpl.
    apply bool_decide_ext. rewrite elem_of_cons. split; [by right|].
    by intros [?|?].
Qed.

Lemma next_fallback_cells_strings alias used norm :
  next_fallback_cells (Str <$> alias) used norm = Ok (next_fallback alias used norm).
Proof.
  unfold next_fallback. induction alias as [|a rest IH]; [done|].
  rewrite fmap_cons. cbn [next_fallback_cells List.find]. rewrite IH.
  by destruct (String.prefix norm a && negb (bool_decide (a ∈ used))).
Qed.

Lemma loop_body_cells_strings alias st p :
  loop_body_cells (Str <$> alias) st p = Ok (loop_body alias st p).
Proof.
  destruct p as [o n]. unfold loop_body_cells, loop_body, exact_match.
  rewrite str_in_strings, next_fallback_cells_strings.
  by destruct (bool_decide (n ∈ alias) && negb (bool_decide (n ∈ used_aliases st))).
Qed.

Lemma run_loop_cells_strings alias st pairs :
  run_loop_cells (Str <$> alias) st pairs = Ok (run_loop alias st pairs).
Proof.
  revert st. induction pairs as [|p rest IH]; intros st; simpl; [done|].
  by rewrite loop_body_cells_strings, IH.
Qed.

(** On a pool of strings only, the two models of [sorter] agree. *)
Lemma sorter_cells_strings origin normalized alias :
  sorter_cells origin normalized (Str <$> alias)
  = match sorter origin normalized alias with
    | Some out => Ok out
    | None => Raise KeyError
    end.
Proof. unfold sorter_cells, sorter. by rewrite run_loop_cells_strings. Qed.

(** The loop itself raises nothing but [AttributeError]. *)
Lemma loop_body_cells_raise pool st p e :
  loop_body_cells pool st p = Raise e → e = AttributeError.
Proof.
  destruct p as [o n]. unfold loop_body_cells.
  destruct (str_in n pool && negb (bool_decide (n ∈ used_aliases st))); [done|].
  destruct (next_fallback_cells pool (used_aliases st) n) as [f|e'] eqn:E; [done|].
  intros [= <-]. clear -E. induction pool as [|[a|] rest IH]; simpl in E.
  - done.
  - destruct (String.prefix n a && negb (bool_decide (a ∈ used_aliases st)));
      [done | by apply IH].
  - by injection E as <-.
Qed.

(** A scan that finds no candidate goes through the whole pool, and so
    meets the entry that is not a string. *)
Lemma next_fallback_cells_not_str pool used norm :
  NotStr ∈ pool →
  (∀ a, Str a ∈ pool → String.prefix norm a = false) →
  next_fallback_cells pool used norm = Raise AttributeError.
Proof.
  induction pool as [|[a|] rest IH]; intros Hin Hno; simpl.
  - by apply elem_of_nil in Hin.
  - rewrite (Hno a) by left. simpl. apply IH.
    + by apply elem_of_cons in Hin as [?|?].
    + intros b Hb. apply Hno. by right.
  - done.
Qed.

Lemma str_in_false norm pool :
  (∀ a, Str a ∈ pool → String.prefix norm a = false) → str_in norm pool = false.
Proof.
  intros Hno. unfold str_in. apply not_true_iff_false.
  intros (c & Hc%list_elem_of_In & Ht)%existsb_exists.
  destruct c as [a|]; [|done]. apply bool_decide_eq_true in Ht as <-.
  specialize (Hno _ Hc). by rewrite prefix_refl in Hno.
Qed.

Lemma run_loop_cells_not_str pool st pairs orig_raw norm :
  (orig_raw, norm) ∈ pairs → NotStr ∈ pool →
  (∀ a, Str a ∈ pool → String.prefix norm a = false) →
  run_loop_cells pool st pairs = Raise AttributeError.
Proof.
  intros Hp Hin Hno. revert st.
  induction pairs as [|p rest IH]; intros st; [by apply elem_of_nil in Hp|].
  simpl. apply elem_of_cons in Hp as [<-|Hp].
  - unfold loop_body_cells. rewrite (str_in_false _ _ Hno). simpl.
    by rewrite (next_fallback_cells_not_str _ _ _ Hin Hno).
  - destruct (loop_body_cells pool st p) as [st'|e] eqn:E; [by apply IH|].
    by rewrite (loop_body_cells_raise _ _ _ _ E).
Qed.

(** X15.  With a pool that holds only strings, the "Process fields" step of
    [main] never raises: it returns one alias per field, and each alias
    starts with the normalised name of its field and is a pool member or
    that normalised name itself, which then consists of lower-case word
    characters only (field names over the code points up to U+00FF). *)
Theorem process_fields_total (origin_fields aliases : list string) :
  ∃ out, process_fields origin_fields (Str <$> aliases) = Ok out
    ∧ length out = length origin_fields
    ∧ ∀ i o, origin_fields !! i = Some o →
        ∃ v, out !! i = Some v
          ∧ String.prefix (normalizer o) v = true
          ∧ (v ∈ aliases
             ∨ (v = normalizer o ∧ Forall (λ c, canonical_char c = true) (chars v))).
Proof.
  unfold process_fields. rewrite sorter_cells_strings.
  assert (consistent origin_fields (normalizer <$> origin_fields)) as Hcons
    by (by exists normalizer).
  pose proof (consistent_length _ _ Hcons) as Hlen.
  destruct (sorter_defined origin_fields (normalizer <$> origin_fields) aliases Hlen)
    as [out Hout].
  rewrite Hout. exists out. split_and!; [done | by eapply sorter_length |].
  intros i o Ho.
  assert ((normalizer <$> origin_fields) !! i = Some (normalizer o)) as Hn
    by (by rewrite list_lookup_fmap, Ho).
  destruct (sorter_consistent_lookup _ _ aliases i _ Hcons Hn)
    as (out' & j & Hout' & _ & _ & _ & Hv).
  rewrite Hout in Hout'. injection Hout' as <-.
  set (used := used_before origin_fields (normalizer <$> origin_fields) aliases j) in Hv.
  exists (assigned aliases used (normalizer o)). split; [done|].
  destruct (assigned_cases aliases used (normalizer o)) as [->|(Hin & _ & Hp)].
  - split; [apply prefix_refl | right]. split; [done|].
    apply Forall_forall. intros c Hc. rewrite chars_normalizer in Hc.
    by eapply normalize_chars_canonical.
  - split; [done | by left].
Qed.

(** X22.  When the pool holds an entry that is not a string and some field
    has a normalised name that no string of the pool starts with, the
    "Process fields" step of [main] raises [AttributeError], whatever the
    other fields and pool entries are. *)
Theorem process_fields_attribute_error (origin_fields : list string)
    (aliases : list cell) (o : string) :
  o ∈ origin_fields → NotStr ∈ aliases →
  (∀ a, Str a ∈ aliases → String.prefix (normalizer o) a = false) →
  process_fields origin_fields aliases = Raise AttributeError.
Proof.
  intros Ho Hin Hno. unfold process_fields, sorter_cells.
  rewrite (run_loop_cells_not_str aliases initial_state _ o (normalizer o));
    [done | | done | done].
  apply list_elem_of_lookup in Ho as [i Hi]. apply list_elem_of_lookup.
  exists i. by rewrite lookup_zip_with, list_lookup_fmap, Hi.
Qed.

Lemma process_fields_attribute_error_witness :
  process_fields ["Field 1"; "Field 2"] [Str "field_1"; NotStr; Str "field_3"]
  = Raise AttributeError.
Proof.
  apply (process_fields_attribute_error ["Field 1"; "Field 2"]
           [Str "field_1"; NotStr; Str "field_3"] "Field 2").
  - apply (bool_decide_unpack _). vm_compute. exact I.
  - right. left.
  - intros a Ha.
    repeat (apply elem_of_cons in Ha as [Ha|Ha]; [simplify_eq; by vm_compute|]).
    by apply elem_of_nil in Ha.
Defined.

End PoolCells.

(** * Properties of [load_schema_data] *)

Section SplitTab.

Implicit Types (text part : list ascii) (c : ascii).

Lemma split_tab_not_nil text : split_tab text ≠ [].
Proof.
  destruct text as [|c rest]; simpl; [done|].
  destruct (is_tab c); [done|]. by destruct (split_tab rest).
Qed.

(** One part more than there are tabs. *)
Lemma split_tab_length text :
  length (split_tab text) = S (length (List.filter is_tab text)).
Proof.
  induction text as [|c rest IH]; simpl; [done|].
  destruct (is_tab c); simpl; [by rewrite IH|].
  destruct (split_tab rest) eqn:E; [by destruct (split_tab_not_nil rest)|].
  by rewrite <- IH.
Qed.

Lemma split_tab_no_tabs text :
  Forall (λ c, is_tab c = false) text → split_tab text = [text].
Proof.
  induction 1 as [|c rest Hc _ IH]; simpl; [done|]. by rewrite Hc, IH.
Qed.

Lemma split_tab_app_tab part text :
  Forall (λ c, is_tab c = false) part →
  split_tab (part ++ tab :: text) = part :: split_tab text.
Proof.
  induction 1 as [|c rest Hc _ IH]; simpl; [done|]. by rewrite Hc, IH.
Qed.

(** Two parts: the text is the first part, a tab, the second part, and
    neither part holds a tab. *)
Lemma split_tab_two text part1 part2 :
  split_tab text = [part1; part2] →
  text = part1 ++ tab :: part2
  ∧ Forall (λ c, is_tab c = false) part1
  ∧ Forall (λ c, is_tab c = false) part2.
Proof.
  revert part1. induction text as [|c rest IH]; intros part1; simpl; [done|].
  destruct (is_tab c) eqn:Hc.
  - intros [= <- Hrest]. apply is_tab_eq in Hc as ->.
    assert (length (List.filter is_tab rest) = 0) as Hnone.
    { pose proof (split_tab_length rest) as Hl. rewrite Hrest in Hl. simpl in Hl. lia. }
    assert (Forall (λ c, is_tab c = false) rest) as Hfree.
    { apply Forall_forall. intros d Hd. destruct (is_tab d) eqn:Hdt; [|done].
      assert (d ∈ List.filter is_tab rest) as Hin
        by (apply list_elem_of_In, filter_In; by rewrite <- list_elem_of_In).
      apply length_zero_iff_nil in Hnone. rewrite Hnone in Hin.
      by apply elem_of_nil in Hin. }
    rewrite (split_tab_no_tabs rest Hfree) in Hrest. injection Hrest as <-.
    by split_and!.
  - destruct (split_tab rest) as [|p ps] eqn:E; [by destruct (split_tab_not_nil rest)|].
    intros [= <- ->]. destruct (IH p eq_refl) as (-> & Hp & Hq).
    split_and!; [done | by constructor | done].
Qed.

End SplitTab.

Section LoadSchema.

Implicit Types (line name ftype : string) (lines : list string).

Lemma load_line_acc acc line :
  load_line acc line
  = (acc.1 ++ (line_fields line).1, acc.2 ++ (line_fields line).2).
Proof.
  unfold line_fields, load_line. destruct acc as [fields types].
  destruct (split_tab (strip (chars line))) as [|a [|b [|c ?]]]; simpl;
    by rewrite ?app_nil_r.
Qed.

Lemma load_from_acc acc lines :
  foldl load_line acc lines
  = (acc.1 ++ (load_schema_data lines).1, acc.2 ++ (load_schema_data lines).2).
Proof.
  unfold load_schema_data. revert acc.
  induction lines as [|line rest IH]; intros acc; simpl.
  - destruct acc. by rewrite !app_nil_r.
  - rewrite (IH (load_line acc line)), (IH (load_line _ line)).
    rewrite (load_line_acc acc), (load_line_acc ([], [])). simpl.
    by rewrite !(assoc_L (++)).
Qed.

Lemma line_fields_cases line :
  (line_fields line = ([], [])
   ∧ count_tabs (strip (chars line)) ≠ 1)
  ∨ (∃ part1 part2,
       line_fields line
       = ([String.string_of_list_ascii part1], [String.string_of_list_ascii part2])
       ∧ strip (chars line) = part1 ++ tab :: part2
       ∧ Forall (λ c, is_tab c = false) part1
       ∧ Forall (λ c, is_tab c = false) part2
       ∧ count_tabs (strip (chars line)) = 1).
Proof.
  unfold line_fields, load_line, count_tabs.
  pose proof (split_tab_length (strip (chars line))) as Hlen.
  destruct (split_tab (strip (chars line))) as [|a [|b [|c ?]]] eqn:E; simpl in *.
  - left. split; [done | lia].
  - left. split; [done | lia].
  - right. exists a, b. destruct (split_tab_two _ _ _ E) as (? & ? & ?).
    split_and!; [done | done | done | done | lia].
  - left. split; [done | lia].
Qed.

End LoadSchema.

Section LoadSchemaExtras.

Implicit Types (line name ftype : string) (lines : list string).

(** X16.  The loader is a homomorphism for concatenation: loading two
    batches of lines one after the other gives the fields of the first batch
    followed by those of the second, names and types alike. *)
Theorem load_schema_data_app lines1 lines2 :
  load_schema_data (lines1 ++ lines2)
  = ((load_schema_data lines1).1 ++ (load_schema_data lines2).1,
     (load_schema_data lines1).2 ++ (load_schema_data lines2).2).
Proof.
  unfold load_schema_data at 1. rewrite foldl_app.
  fold (load_schema_data lines1). apply load_from_acc.
Qed.

Lemma load_schema_data_cons line lines :
  load_schema_data (line :: lines)
  = ((line_fields line).1 ++ (load_schema_data lines).1,
     (line_fields line).2 ++ (load_schema_data lines).2).
Proof.
  unfold load_schema_data at 1. simpl. fold (line_fields line).
  apply load_from_acc.
Qed.

(** Every loaded pair comes from a line whose stripped text is the name, one
    tab, the type. *)
Lemma load_schema_data_rows lines :
  Forall2 (λ name ftype,
             ∃ line, line ∈ lines
               ∧ strip (chars line) = chars name ++ tab :: chars ftype
               ∧ Forall (λ c, is_tab c = false) (chars name)
               ∧ Forall (λ c, is_tab c = false) (chars ftype))
          (load_schema_data lines).1 (load_schema_data lines).2.
Proof.
  induction lines as [|line rest IH]; [by constructor|].
  rewrite load_schema_data_cons. simpl. apply Forall2_app.
  - destruct (line_fields_cases line) as [[-> _]|(p1 & p2 & -> & E & H1 & H2 & _)];
      simpl; [by constructor|].
    constructor; [|by constructor]. exists line.
    rewrite !chars_of_list. split_and!; [by left | done | done | done].
  - eapply Forall2_impl; [exact IH|]. simpl.
    intros name ftype (l & Hl & ?). exists l. split; [by right | done].
Qed.

(** X17.  The two returned lists have the same length, at most the number
    of lines. *)
Theorem load_schema_data_lengths lines :
  length (load_schema_data lines).1 = length (load_schema_data lines).2
  ∧ length (load_schema_data lines).1 ≤ length lines.
Proof.
  split; [eapply Forall2_length, load_schema_data_rows|].
  induction lines as [|line rest IH]; [done|].
  rewrite load_schema_data_cons. simpl. rewrite length_app.
  destruct (line_fields_cases line) as [[-> _]|(p1 & p2 & -> & _)]; simpl; lia.
Qed.

(** X18.  Every loaded field comes from a line that, once stripped, is the
    name, one tab and the type.  Hence neither holds a tab, neither is
    empty, the name does not start and the type does not end with
    whitespace. *)
Theorem load_schema_data_wellformed lines i name ftype :
  (load_schema_data lines).1 !! i = Some name →
  (load_schema_data lines).2 !! i = Some ftype →
  (∃ line, line ∈ lines
           ∧ strip (chars line) = chars name ++ tab :: chars ftype)
  ∧ Forall (λ c, is_tab c = false) (chars name)
  ∧ Forall (λ c, is_tab c = false) (chars ftype)
  ∧ name ≠ EmptyString ∧ ftype ≠ EmptyString
  ∧ from_option Char.is_space false (head (chars name)) = false
  ∧ from_option Char.is_space false (last (chars ftype)) = false.
Proof.
  intros Hn Ht.
  destruct (Forall2_lookup_lr _ _ _ _ _ _ (load_schema_data_rows lines) Hn Ht)
    as (line & Hline & E & H1 & H2).
  pose proof (strip_head (chars line)) as Hh.
  pose proof (strip_last (chars line)) as Hl.
  rewrite E in Hh, Hl. rewrite last_app_cons, last_cons in Hl.
  split_and!; [by exists line | done | done | | | |].
  - intros ->. done.
  - intros ->. done.
  - by destruct (chars name).
  - by destruct (last (chars ftype)).
Qed.

Lemma load_schema_data_wellformed_witness :
  (∃ line, line ∈ ["  Campo 1" +:+ String tab "STRING  "; "no field here"]
           ∧ strip (chars line) = chars "Campo 1" ++ tab :: chars "STRING")
  ∧ Forall (λ c, is_tab c = false) (chars "Campo 1")
  ∧ Forall (λ c, is_tab c = false) (chars "STRING")
  ∧ "Campo 1" ≠ EmptyString ∧ "STRING" ≠ EmptyString
  ∧ from_option Char.is_space false (head (chars "Campo 1")) = false
  ∧ from_option Char.is_space false (last (chars "STRING")) = false.
Proof.
  apply (load_schema_data_wellformed
           ["  Campo 1" +:+ String tab "STRING  "; "no field here"] 0
           "Campo 1" "STRING"); reflexivity.
Defined.

(** X19.  A line made of a name, one tab and a type, with whitespace around
    it, loads as exactly that name and that type, provided neither holds a
    tab nor is empty, the name does not start and the type does not end
    with whitespace. *)
Theorem load_schema_data_line w1 name ftype w2 :
  Forall (λ c, Char.is_space c = true) (chars w1) →
  Forall (λ c, Char.is_space c = true) (chars w2) →
  Forall (λ c, is_tab c = false) (chars name) →
  Forall (λ c, is_tab c = false) (chars ftype) →
  from_option Char.is_space true (head (chars name)) = false →
  from_option Char.is_space true (last (chars ftype)) = false →
  load_schema_data [w1 +:+ name +:+ String tab ftype +:+ w2] = ([name], [ftype]).
Proof.
  intros Hw1 Hw2 Hn Ht Hhead Hlast.
  unfold load_schema_data. simpl. unfold load_line.
  rewrite !chars_app. change (chars (String tab ftype)) with (tab :: chars ftype).
  rewrite (assoc_L (++) (chars name)).
  rewrite strip_outer_spaces by done.
  assert (strip (chars name ++ tab :: chars ftype) = chars name ++ tab :: chars ftype)
    as ->.
  { unfold strip.
    assert (lstrip (chars name ++ tab :: chars ftype)
            = chars name ++ tab :: chars ftype) as ->.
    { destruct (chars name) as [|c rest]; [done|]. simpl in *. by rewrite Hhead. }
    unfold rstrip. rewrite reverse_app, reverse_cons, <- (assoc_L (++)).
    assert (lstrip (reverse (chars ftype) ++ [tab] ++ reverse (chars name))
            = reverse (chars ftype) ++ [tab] ++ reverse (chars name)) as ->.
    { rewrite <- head_reverse in Hlast.
      destruct (reverse (chars ftype)) as [|c rest]; [done|]. simpl in *.
      by rewrite Hlast. }
    rewrite !reverse_app, !reverse_involutive. simpl.
    by rewrite <- (assoc_L (++)). }
  rewrite (split_tab_app_tab _ _ Hn), (split_tab_no_tabs _ Ht). simpl.
  by rewrite !of_list_chars.
Qed.

Lemma load_schema_data_line_witness :
  load_schema_data [" " +:+ "Campo 1" +:+ String tab "STRING" +:+ "  "]
  = (["Campo 1"], ["STRING"]).
Proof.
  apply (load_schema_data_line " " "Campo 1" "STRING" "  ");
    first [reflexivity | repeat constructor].
Defined.

(** X20.  A line contributes a field exactly when its stripped text holds
    exactly one tab; any other line (blank, without a tab, with two or more
    tabs, or with its only tab at an end) is skipped. *)
Theorem load_schema_data_skip_iff line :
  load_schema_data [line] = ([], []) ↔ count_tabs (strip (chars line)) ≠ 1.
Proof.
  change (load_schema_data [line]) with (line_fields line).
  destruct (line_fields_cases line) as [[-> H]|(p1 & p2 & -> & _ & _ & _ & H)].
  - done.
  - split; [done | intros Hne; by destruct Hne].
Qed.

End LoadSchemaExtras.

(** * The column lines of the generated SQL *)

Section ColumnLines.

Implicit Types (origin field alias lines : list string).

Lemma catalog_field_lines_length origin field :
  length (catalog_field_lines origin field)
  = length origin `min` length field + 4.
Proof.
  unfold catalog_field_lines. by rewrite length_app, length_fmap, length_zip_with.
Qed.

Lemma populator_field_lines_length origin alias :
  length (populator_field_lines origin alias)
  = length origin `min` length alias + 4.
Proof.
  unfold populator_field_lines.
  by rewrite length_app, !length_fmap, length_zip_with.
Qed.

Lemma catalog_field_lines_lookup origin field i name ftype :
  origin !! i = Some name → field !! i = Some ftype →
  catalog_field_lines origin field !! i
  = Some ("    `" +:+ name +:+ "` " +:+ ftype +:+ ",").
Proof.
  intros Ho Hf. unfold catalog_field_lines. rewrite lookup_app_l.
  - by rewrite list_lookup_fmap, lookup_zip_with, Ho, Hf.
  - rewrite length_fmap, length_zip_with.
    apply lookup_lt_Some in Ho, Hf. lia.
Qed.

Lemma populator_field_lines_lookup origin alias i orig alias_val :
  origin !! i = Some orig → alias !! i = Some alias_val →
  populator_field_lines origin alias !! i
  = Some (indent ("`" +:+ orig +:+ "` AS " +:+ alias_val +:+ ",")).
Proof.
  intros Ho Ha. unfold populator_field_lines. rewrite lookup_app_l.
  - by rewrite !list_lookup_fmap, lookup_zip_with, Ho, Ha.
  - rewrite !length_fmap, length_zip_with.
    apply lookup_lt_Some in Ho, Ha. lia.
Qed.

Lemma catalog_field_lines_audit origin field :
  length origin ≤ length field →
  drop (length origin) (catalog_field_lines origin field)
  = indent <$> catalog_audit_fields.
Proof.
  intros Hlen. unfold catalog_field_lines. apply drop_app_length'.
  rewrite length_fmap, length_zip_with. lia.
Qed.

Lemma populator_field_lines_audit origin alias :
  length origin ≤ length alias →
  drop (length origin) (populator_field_lines origin alias)
  = indent <$> populator_audit_fields.
Proof.
  intros Hlen. unfold populator_field_lines. apply drop_app_length'.
  rewrite !length_fmap, length_zip_with. lia.
Qed.

(** X21.  For any schema file and any pool of strings, the table definition
    and the SELECT list the loaded fields one for one and in the same
    order, and then their four audit lines and nothing else: no loaded
    field is dropped by either [zip], line [i] of the first pairs field [i]
    with its type and line [i] of the second pairs it with its alias. *)
Theorem schema_column_lines (lines alias : list string) :
  ∃ aligned,
    process_fields (load_schema_data lines).1 (Str <$> alias) = Ok aligned
    ∧ length (catalog_field_lines (load_schema_data lines).1 (load_schema_data lines).2)
      = length (load_schema_data lines).1 + 4
    ∧ length (populator_field_lines (load_schema_data lines).1 aligned)
      = length (load_schema_data lines).1 + 4
    ∧ (∀ i name, (load_schema_data lines).1 !! i = Some name →
        ∃ ftype alias_val,
          (load_schema_data lines).2 !! i = Some ftype
          ∧ aligned !! i = Some alias_val
          ∧ catalog_field_lines (load_schema_data lines).1 (load_schema_data lines).2 !! i
            = Some ("    `" +:+ name +:+ "` " +:+ ftype +:+ ",")
          ∧ populator_field_lines (load_schema_data lines).1 aligned !! i
            = Some (indent ("`" +:+ name +:+ "` AS " +:+ alias_val +:+ ",")))
    ∧ drop (length (load_schema_data lines).1)
        (catalog_field_lines (load_schema_data lines).1 (load_schema_data lines).2)
      = [ "    fecha_audit_create TIMESTAMP";
          "    proceso_audit_create STRING";
          "    fecha_audit_update TIMESTAMP";
          "    proceso_audit_update STRING" ]
    ∧ drop (length (load_schema_data lines).1)
        (populator_field_lines (load_schema_data lines).1 aligned)
      = [ "    current_timestamp AS fecha_audit_create,";
          "    'drilling-standarized2lakehouse-pipeline' AS proceso_audit_create,";
          "    null AS fecha_audit_update,";
          "    null AS proceso_audit_update" ].
Proof.
  set (origin := (load_schema_data lines).1).
  set (field := (load_schema_data lines).2).
  assert (length origin = length field) as Hlen
    by (eapply Forall2_length, load_schema_data_rows).
  assert (length origin = length (normalizer <$> origin)) as Hlen'
    by (by rewrite length_fmap).
  destruct (sorter_defined origin (normalizer <$> origin) alias Hlen')
    as [aligned Haligned].
  pose proof (sorter_length _ _ _ _ Haligned) as Hal.
  exists aligned. split_and!.
  - unfold process_fields. by rewrite sorter_cells_strings, Haligned.
  - rewrite catalog_field_lines_length. lia.
  - rewrite populator_field_lines_length. lia.
  - intros i name Hname.
    assert (is_Some (field !! i)) as [ftype Hf].
    { apply lookup_lt_is_Some. rewrite <- Hlen. by eapply lookup_lt_Some. }
    assert (is_Some (aligned !! i)) as [alias_val Ha].
    { apply lookup_lt_is_Some. rewrite Hal. by eapply lookup_lt_Some. }
    exists ftype, alias_val. split_and!; [done | done | |].
    + by apply catalog_field_lines_lookup.
    + by apply populator_field_lines_lookup.
  - rewrite catalog_field_lines_audit by lia. reflexivity.
  - rewrite populator_field_lines_audit by lia. reflexivity.
Qed.

End ColumnLines.
